(** * pwndbg: debugger-agnostic core (aglib and the GDB adapter)

    A shallow embedding of the parts of
      - [pwndbg/aglib/memory.py]  (peek, poke, string, boundary search),
      - [pwndbg/aglib/regs.py]    (the register facade),
      - [pwndbg/aglib/arch.py]    (Thumb bit),
      - [pwndbg/dbg/gdb.py]       (frame and thread selection, type codes,
                                   address formatting)
    together with the properties stated about them.

    Python integers are [Z]; a [bytearray] is a list of byte values
    (integers in 0..255); a [str] is a list of code points where the code
    encodes it ([memory.write]) and a list of characters where the code
    scans it ([regs.fix]).  A call that can raise returns a [result]. *)

From Stdlib Require Import ZArith List String Ascii Bool Lia.
From Stdlib Require Import HexadecimalString HexadecimalN.
Import ListNotations.
Local Open Scope Z_scope.

(** ** Python outcomes *)

(** The exceptions that occur in the modelled code.  [Error] is
    [pwndbg.dbg_mod.Error] (under GDB, [gdb.error]): the one kind of
    failure the engine reports. *)
Inductive exn : Type :=
| Error
| IndexError
| ValueError
| TypeError
| KeyError
| AttributeError
| AssertionError
| UnicodeEncodeError
| NameError (name : string).

Inductive result (A : Type) : Type :=
| Ret (a : A)
| Raise (e : exn).
Arguments Ret {A} a.
Arguments Raise {A} e.

Definition is_Error (e : exn) : bool :=
  match e with Error => true | _ => false end.

(** Python truthiness of an optional [str]: [None] and the empty string
    are false. *)
Definition truthy {A : Type} (o : option (list A)) : bool :=
  match o with
  | None => false
  | Some [] => false
  | Some (_ :: _) => true
  end.

(** ** The [Process] interface, as far as memory goes

    [pwndbg.dbg.selected_inferior()] is not part of these sources: the
    inferior is a parameter.  [read_memory] answers with the bytes or
    raises; [write_memory] leaves a new inferior behind and may raise. *)
Class Process : Type := {
  inferior : Type;
  read_memory : inferior -> Z -> Z -> bool -> result (list Z);
  write_memory : inferior -> Z -> list Z -> bool -> inferior * result unit
}.

Module memory.

(** Modelled from the spec: [pwndbg.lib.memory.PAGE_SIZE] is not in these
    sources; the search works at page granularity, a page has 4096
    bytes. *)
Definition PAGE_SIZE : Z := 4096.

(** Modelled from the spec: [pwndbg.lib.memory.page_align] is not in
    these sources; page alignment clears the offset inside the page. *)
Definition page_align (address : Z) : Z :=
  Z.land address (Z.lnot (PAGE_SIZE - 1)).

(** [str | bytes | bytearray], the argument type of [write]. *)
Inductive data : Type :=
| Str (codepoints : list Z)
| Bytes (bytes : list Z).

(** [bytes(c, "utf8")] for one code point. *)
Definition utf8_encode_char (c : Z) : result (list Z) :=
  if c <? 0x80 then Ret [c]
  else if c <? 0x800 then
    Ret [Z.lor 0xC0 (Z.shiftr c 6); Z.lor 0x80 (Z.land c 0x3F)]
  else if (0xD800 <=? c) && (c <=? 0xDFFF) then Raise UnicodeEncodeError
  else if c <? 0x10000 then
    Ret [Z.lor 0xE0 (Z.shiftr c 12);
         Z.lor 0x80 (Z.land (Z.shiftr c 6) 0x3F);
         Z.lor 0x80 (Z.land c 0x3F)]
  else
    Ret [Z.lor 0xF0 (Z.shiftr c 18);
         Z.lor 0x80 (Z.land (Z.shiftr c 12) 0x3F);
         Z.lor 0x80 (Z.land (Z.shiftr c 6) 0x3F);
         Z.lor 0x80 (Z.land c 0x3F)].

Fixpoint utf8_encode (s : list Z) : result (list Z) :=
  match s with
  | [] => Ret []
  | c :: s' =>
      match utf8_encode_char c, utf8_encode s' with
      | Ret b, Ret bs => Ret (b ++ bs)
      | Raise e, _ => Raise e
      | _, Raise e => Raise e
      end
  end.

(** [data.index(b"\x00")]. *)
Fixpoint index_zero (bs : list Z) : option nat :=
  match bs with
  | [] => None
  | b :: bs' =>
      if b =? 0 then Some O
      else match index_zero bs' with
           | Some i => Some (S i)
           | None => None
           end
  end.

Section Helpers.
Context {P : Process}.

(** [read(addr, count, partial=False)] *)
Definition read (inf : inferior) (addr count : Z) (partial : bool)
  : result (list Z) :=
  read_memory inf addr count partial.

(** [write(addr, data)]: a [str] is first encoded as UTF-8. *)
Definition write (inf : inferior) (addr : Z) (d : data)
  : inferior * result unit :=
  match d with
  | Str s =>
      match utf8_encode s with
      | Ret bs => write_memory inf addr bs false
      | Raise e => (inf, Raise e)
      end
  | Bytes bs => write_memory inf addr bs false
  end.

(** [peek(address)]: [chr(read(address, 1)[0])], any exception gives
    [None].  The result is a one-character [str]. *)
Definition peek (inf : inferior) (address : Z) : option (list Z) :=
  match read inf address 1 false with
  | Ret (b :: _) => Some [b]
  | Ret [] => None
  | Raise _ => None
  end.

(** [poke(address)] *)
Definition poke (inf : inferior) (address : Z) : inferior * bool :=
  match peek inf address with
  | None => (inf, false)
  | Some c =>
      match write inf address (Str c) with
      | (inf', Ret _) => (inf', true)
      | (inf', Raise _) => (inf', false)
      end
  end.

(** [string(addr, max=4096)].  The read is outside the [try]: only the
    [ValueError] of [index] is caught. *)
Definition string (inf : inferior) (addr max : Z) : result (list Z) :=
  if truthy (peek inf addr) then
    match read inf addr max true with
    | Raise e => Raise e
    | Ret bs =>
        match index_zero bs with
        | Some i => Ret (firstn i bs)
        | None => Ret []
        end
    end
  else Ret [].

(** The loop of [find_upper_boundary], [n] iterations left.  An [Error]
    of [read] ends the search at the current address; any other
    exception propagates. *)
Fixpoint upper_loop (inf : inferior) (ptrmask : Z) (n : nat) (addr : Z)
  : result Z :=
  match n with
  | O => Ret addr
  | S n' =>
      match read inf addr 1 false with
      | Raise e => if is_Error e then Ret addr else Raise e
      | Ret _ =>
          let addr' := addr + PAGE_SIZE in
          if ptrmask <? addr' then Ret ptrmask
          else upper_loop inf ptrmask n' addr'
      end
  end.

(** [find_upper_boundary(addr, max_pages=1024)] *)
Definition find_upper_boundary (inf : inferior) (ptrmask addr max_pages : Z)
  : result Z :=
  upper_loop inf ptrmask (Z.to_nat max_pages) (page_align addr).

(** The loop of [find_lower_boundary]: on [Error] the handler steps one
    page back up. *)
Fixpoint lower_loop (inf : inferior) (n : nat) (addr : Z) : result Z :=
  match n with
  | O => Ret addr
  | S n' =>
      match read inf addr 1 false with
      | Raise e => if is_Error e then Ret (addr + PAGE_SIZE) else Raise e
      | Ret _ =>
          let addr' := addr - PAGE_SIZE in
          if addr' <? 0 then Ret 0
          else lower_loop inf n' addr'
      end
  end.

(** [find_lower_boundary(addr, max_pages=1024)] *)
Definition find_lower_boundary (inf : inferior) (addr max_pages : Z)
  : result Z :=
  lower_loop inf (Z.to_nat max_pages) (page_align addr).

End Helpers.

(** Modelled from the spec: [pwndbg.lib.memory.Page] is not in these
    sources; a mapping is an address range, used for containment
    tests. *)
Record Page : Type := { start : Z; end_ : Z }.

(** [address in page] *)
Definition contains (page : Page) (address : Z) : bool :=
  (start page <=? address) && (address <? end_ page).

Section Readable.
Context {P : Process}.
(** [pwndbg.dbg.selected_inferior().vmmap().ranges()], a parameter like
    the inferior itself. *)
Variable ranges : inferior -> list Page.

(** [is_readable_address(address)]: the loop keeps the first page that
    contains the address; [peek] is asked only when there is one. *)
Definition is_readable_address (inf : inferior) (address : Z) : bool :=
  let found := List.find (fun page => contains page address) (ranges inf) in
  match found with
  | None => false
  | Some _ =>
      match peek inf address with
      | Some _ => true
      | None => false
      end
  end.

End Readable.

End memory.

(** ** A flat byte memory, for running the helpers on concrete inputs *)

Module flat.

Record cell : Type := { value : Z; writable : bool }.

(** An address is readable when it has a cell. *)
Definition mem : Type := Z -> option cell.

Fixpoint read_run (m : mem) (addr : Z) (n : nat) : list Z :=
  match n with
  | O => []
  | S n' =>
      match m addr with
      | Some c => value c :: read_run m (addr + 1) n'
      | None => []
      end
  end.

(** Modelled from the spec: [Process.read_memory(address, size, partial)]
    is not in these sources.  A read fails with a memory error if any
    byte is unreadable, unless [partial] allows a short result. *)
Definition read_memory (m : mem) (addr size : Z) (partial : bool)
  : result (list Z) :=
  let n := Z.to_nat size in
  let got := read_run m addr n in
  if partial || (List.length got =? n)%nat then Ret got else Raise Error.

Fixpoint all_writable (m : mem) (addr : Z) (n : nat) : bool :=
  match n with
  | O => true
  | S n' =>
      match m addr with
      | Some c => writable c && all_writable m (addr + 1) n'
      | None => false
      end
  end.

Definition store (m : mem) (addr b : Z) : mem :=
  fun a => if a =? addr then Some {| value := b; writable := true |} else m a.

Fixpoint store_all (m : mem) (addr : Z) (bs : list Z) : mem :=
  match bs with
  | [] => m
  | b :: bs' => store_all (store m addr b) (addr + 1) bs'
  end.

(** Modelled from the spec: [Process.write_memory(address, data, partial)]
    is not in these sources.  The write stores every byte, or fails and
    stores none when one of the addresses cannot be written. *)
Definition write_memory (m : mem) (addr : Z) (bs : list Z) (partial : bool)
  : mem * result unit :=
  if all_writable m addr (List.length bs) then (store_all m addr bs, Ret tt)
  else (m, Raise Error).

#[export] Instance process : Process := {
  inferior := mem;
  read_memory := flat.read_memory;
  write_memory := flat.write_memory
}.

(** [bs] laid out from [base], every byte with the same permission. *)
Definition region (base : Z) (bs : list Z) (w : bool) : mem :=
  fun a =>
    if (base <=? a) && (a <? base + Z.of_nat (List.length bs)) then
      match nth_error bs (Z.to_nat (a - base)) with
      | Some b => Some {| value := b; writable := w |}
      | None => None
      end
    else None.

(** Whole pages starting at [base]: [n] pages, every byte zero. *)
Definition pages (base : Z) (n : Z) : mem :=
  fun a =>
    if (base <=? a) && (a <? base + n * memory.PAGE_SIZE) then
      Some {| value := 0; writable := false |}
    else None.

Definition byte_at (m : mem) (a : Z) : option Z :=
  match m a with
  | Some c => Some (value c)
  | None => None
  end.

End flat.

(** ** [pwndbg.lib.arch.Arch] *)

Module Arch.

(** Modelled from the spec: the class [Arch] is not in these sources.  An
    architecture descriptor has an identifier, a pointer size in bytes
    and a pointer bit-mask derived from the size. *)
Definition ptrmask (ptrsize : Z) : Z := Z.shiftl 1 (8 * ptrsize) - 1.

End Arch.

(** ** Python text: [split], [isdigit], [int] *)

Module text.

(** [str.isspace] on the code points below 256. *)
Definition is_space (c : ascii) : bool :=
  let n := nat_of_ascii c in
  (((9 <=? n) && (n <=? 13)) || ((28 <=? n) && (n <=? 32))
   || (n =? 133) || (n =? 160))%nat.

(** [s.split()]: the maximal runs of characters that are not white
    space.  [cur] is the run being read, last character first. *)
Fixpoint split_from (cur : list ascii) (s : list ascii)
  : list String.string :=
  let flush (rest : list String.string) :=
    match cur with
    | [] => rest
    | _ => string_of_list_ascii (rev cur) :: rest
    end in
  match s with
  | [] => flush []
  | c :: s' =>
      if is_space c then flush (split_from [] s')
      else split_from (c :: cur) s'
  end.

Definition split (s : String.string) : list String.string :=
  split_from [] (list_ascii_of_string s).

Definition is_ascii_digit (c : ascii) : bool :=
  let n := nat_of_ascii c in ((48 <=? n) && (n <=? 57))%nat.

(** [str.isdigit] on the code points below 256: the ASCII digits and
    the superscripts one, two and three; an empty string has none. *)
Definition isdigit (s : String.string) : bool :=
  match list_ascii_of_string s with
  | [] => false
  | cs =>
      forallb (fun c =>
                 let n := nat_of_ascii c in
                 (is_ascii_digit c || (n =? 178) || (n =? 179) || (n =? 185))%nat)
        cs
  end.

(** The digits of [int(s)]: decimal digits, single underscores between
    them.  [after_digit] tells whether the character before was a
    digit. *)
Fixpoint digits (acc : Z) (after_digit : bool) (s : list ascii)
  : option Z :=
  match s with
  | [] => if after_digit then Some acc else None
  | c :: s' =>
      if is_ascii_digit c then
        digits (10 * acc + (Z.of_nat (nat_of_ascii c) - 48)) true s'
      else if Ascii.eqb c "_" then
        if after_digit then digits acc false s' else None
      else None
  end.

(** [int(s)] for a text without white space, as [split] gives them: an
    optional sign and the digits; [None] is a [ValueError]. *)
Definition int (s : String.string) : option Z :=
  match list_ascii_of_string s with
  | c :: s' =>
      if Ascii.eqb c "+" then digits 0 false s'
      else if Ascii.eqb c "-" then option_map Z.opp (digits 0 false s')
      else digits 0 false (c :: s')
  | [] => None
  end.

(** [l.index(x)] *)
Fixpoint index (x : String.string) (l : list String.string) : option nat :=
  match l with
  | [] => None
  | y :: l' =>
      if String.eqb y x then Some O
      else option_map S (index x l')
  end.

End text.

(** ** The GDB adapter, [pwndbg/dbg/gdb.py] *)

Module gdb.

(** *** Selection state of the engine *)

Definition frame : Type := nat.
Definition thread : Type := nat.

(** What [gdb.selected_frame()] and [gdb.selected_thread()] answer.
    Without a selected frame the first raises [gdb.error]; without a
    selected thread the second returns [None]. *)
Record engine : Type := {
  sel_frame : option frame;
  sel_thread : option thread
}.

(** [frame.select()] *)
Definition select (f : frame) (g : engine) : engine :=
  {| sel_frame := Some f; sel_thread := sel_thread g |}.

(** [thread.switch()] *)
Definition switch (t : thread) (g : engine) : engine :=
  {| sel_frame := sel_frame g; sel_thread := Some t |}.

Definition selected_frame (g : engine) : result frame :=
  match sel_frame g with
  | Some f => Ret f
  | None => Raise Error
  end.

(** The engine's evaluator and stack walker are parameters:
    [gdb.parse_and_eval(expression, global_context=False)] evaluates in
    the selected frame, [gdb.newest_frame()] answers for the selected
    thread; both raise [gdb.error] when they fail. *)
Class Api : Type := {
  value : Type;
  parse_and_eval : option frame -> String.string -> result value;
  newest_frame : option thread -> result frame
}.

Module GDBFrame.
Section Methods.
Context {api : Api}.

(** [GDBFrame.evaluate_expression].  A raise of [parse_and_eval] leaves
    the function at once: the lines after it do not run. *)
Definition evaluate_expression (inner : frame) (expression : String.string)
    (g : engine) : engine * result value :=
  match selected_frame g with
  | Raise e => (g, Raise e)
  | Ret selected =>
      let restore := negb (Nat.eqb selected inner) in
      let g1 := if restore then select inner g else g in
      match parse_and_eval (sel_frame g1) expression with
      | Raise e => (g1, Raise e)
      | Ret v =>
          let g2 := if restore then select selected g1 else g1 in
          (g2, Ret v)
      end
  end.

End Methods.
End GDBFrame.

Module GDBThread.
Section Methods.
Context {api : Api}.

(** [selected != self.inner] on an optional thread. *)
Definition differs (selected : option thread) (inner : thread) : bool :=
  match selected with
  | Some t => negb (Nat.eqb t inner)
  | None => true
  end.

(** [GDBThread.bottom_frame].  When no thread was selected, [selected]
    is [None] and restoring it is an [AttributeError]. *)
Definition bottom_frame (inner : thread) (g : engine)
  : engine * result frame :=
  let selected := sel_thread g in
  let restore := differs selected inner in
  let g1 := if restore then switch inner g else g in
  match newest_frame (sel_thread g1) with
  | Raise e => (g1, Raise e)
  | Ret v =>
      if restore then
        match selected with
        | Some t => (switch t g1, Ret v)
        | None => (g1, Raise AttributeError)
        end
      else (g1, Ret v)
  end.

End Methods.
End GDBThread.

(** *** Type codes *)

(** The engine's type codes, [gdb.TYPE_CODE_*]. *)
Inductive type_code : Type :=
| TYPE_CODE_BITSTRING | TYPE_CODE_ERROR | TYPE_CODE_PTR | TYPE_CODE_ARRAY
| TYPE_CODE_STRUCT | TYPE_CODE_UNION | TYPE_CODE_ENUM | TYPE_CODE_FLAGS
| TYPE_CODE_FUNC | TYPE_CODE_INT | TYPE_CODE_FLT | TYPE_CODE_VOID
| TYPE_CODE_SET | TYPE_CODE_RANGE | TYPE_CODE_STRING | TYPE_CODE_METHOD
| TYPE_CODE_METHODPTR | TYPE_CODE_MEMBERPTR | TYPE_CODE_REF
| TYPE_CODE_RVALUE_REF | TYPE_CODE_CHAR | TYPE_CODE_BOOL
| TYPE_CODE_COMPLEX | TYPE_CODE_TYPEDEF | TYPE_CODE_NAMESPACE
| TYPE_CODE_DECFLOAT | TYPE_CODE_INTERNAL_FUNCTION.

Definition type_code_eq_dec (a b : type_code) : {a = b} + {a <> b}.
Proof. decide equality. Defined.

(** Modelled from the spec: [pwndbg.dbg_mod.TypeCode] is not in these
    sources; the taxonomy is int, union, struct, enum, typedef, pointer,
    array. *)
Inductive TypeCode : Type :=
| INT | UNION | STRUCT | ENUM | TYPEDEF | POINTER | ARRAY.

(** The objects a Python name of this module can be bound to, as far as
    the type-code property can tell them apart. *)
Inductive object : Type :=
| Table (t : list (type_code * TypeCode))
| Other.

Fixpoint lookup {A : Type} (name : String.string)
    (ns : list (String.string * A)) : option A :=
  match ns with
  | [] => None
  | (n, a) :: ns' => if String.eqb n name then Some a else lookup name ns'
  end.

Fixpoint table_get (c : type_code) (t : list (type_code * TypeCode))
  : option TypeCode :=
  match t with
  | [] => None
  | (k, v) :: t' => if type_code_eq_dec k c then Some v else table_get c t'
  end.

(** The names bound at the top level of [gdb.py]: its imports and its
    classes, in source order. *)
Definition module_globals : list (String.string * object) :=
  [("annotations", Other); ("signal", Other); ("gdb", Other);
   ("Callable", Other); ("override", Other); ("pwndbg", Other);
   ("load_commands", Other); ("gdb_version", Other);
   ("load_gdblib", Other); ("GDBFrame", Other); ("GDBThread", Other);
   ("GDBProcess", Other); ("GDBSession", Other); ("GDBCommand", Other);
   ("GDBCommandHandle", Other); ("GDBType", Other); ("GDBValue", Other);
   ("GDB", Other)]%string.

Module GDBType.

Definition CODE_MAPPING : list (type_code * TypeCode) :=
  [(TYPE_CODE_INT, INT);
   (TYPE_CODE_UNION, UNION);
   (TYPE_CODE_STRUCT, STRUCT);
   (TYPE_CODE_ENUM, ENUM);
   (TYPE_CODE_TYPEDEF, TYPEDEF);
   (TYPE_CODE_PTR, POINTER);
   (TYPE_CODE_ARRAY, ARRAY)].

(** The names bound in the body of [class GDBType]. *)
Definition class_namespace : list (String.string * object) :=
  [("CODE_MAPPING", Table CODE_MAPPING); ("__init__", Other);
   ("alignof", Other); ("code", Other); ("fields", Other);
   ("array", Other); ("pointer", Other); ("strip_typedefs", Other);
   ("target", Other)]%string.

(** A bare name in a method body that is not a local is looked up in the
    module's globals (then the builtins, which have no such name): the
    scope of the enclosing class body is not searched. *)
Definition load_global (name : String.string) : result object :=
  match lookup name module_globals with
  | Some o => Ret o
  | None => Raise (NameError name)
  end.

(** The property [GDBType.code]:
    [assert self.inner.code in CODE_MAPPING; return CODE_MAPPING[...]]. *)
Definition code (inner_code : type_code) : result TypeCode :=
  match load_global "CODE_MAPPING" with
  | Raise e => Raise e
  | Ret (Table t) =>
      match table_get inner_code t with
      | Some c => Ret c
      | None => Raise AssertionError
      end
  | Ret Other => Raise TypeError
  end.

(** The same body with the table reached through the class, as in
    [GDBType.CODE_MAPPING]: what the lookup is meant to find. *)
Definition code_through_class (inner_code : type_code) : result TypeCode :=
  match lookup "CODE_MAPPING"%string class_namespace with
  | Some (Table t) =>
      match table_get inner_code t with
      | Some c => Ret c
      | None => Raise AssertionError
      end
  | Some Other => Raise TypeError
  | None => Raise AttributeError
  end.

End GDBType.

(** *** Address formatting *)

Module GDB.

(** The digits of [n >= 0] in lower-case hexadecimal, no leading zero. *)
Definition hex_digits (n : Z) : String.string :=
  NilZero.string_of_uint (N.to_hex_uint (Z.to_N n)).

Fixpoint spaces (n : nat) : String.string :=
  match n with
  | O => EmptyString
  | S n' => String " " (spaces n')
  end.

(** ["%#<width>x" % n] for a positive [width] and [n >= 0]: the
    alternate form puts [0x] before the digits, and a width without the
    [0] flag pads on the left with spaces. *)
Definition format_alt_hex (width : Z) (n : Z) : String.string :=
  let body := ("0x" ++ hex_digits n)%string in
  (spaces (Z.to_nat width - String.length body) ++ body)%string.

(** [GDB.addrsz(address)] *)
Definition addrsz (ptrsize : Z) (address : Z) : String.string :=
  let address := Z.land address (Arch.ptrmask ptrsize) in
  format_alt_hex (2 * ptrsize) address.

(** [gdb.execute(command, to_string=True)]: the text GDB prints, or
    [gdb.error]. *)
Class Console : Type := {
  execute : String.string -> result String.string
}.

Section Window.
Context {console : Console}.

(** [GDB.get_cmd_window_size()].  Only [gdb.error] is caught, and only
    around [execute]; a [ValueError] of [int] propagates. *)
Definition get_cmd_window_size : result (option Z * option Z) :=
  match execute "info win" with
  | Raise e => if is_Error e then Ret (None, None) else Raise e
  | Ret out =>
      let info_out := text.split out in
      match text.index "cmd" info_out with
      | None => Ret (None, None)
      | Some cmd_win_index =>
          if (List.length info_out <=? cmd_win_index + 2)%nat
          then Ret (None, None)
          else
            let a := nth (cmd_win_index + 1) info_out EmptyString in
            let b := nth (cmd_win_index + 2) info_out EmptyString in
            if negb (text.isdigit a) && negb (text.isdigit b)
            then Ret (None, None)
            else
              match text.int a, text.int b with
              | Some x, Some y => Ret (Some x, Some y)
              | _, _ => Raise ValueError
              end
      end
  end.

End Window.

End GDB.

End gdb.

(** ** [pwndbg.lib.regs.RegisterSet] *)

Module RegisterSet.

Definition BitFlags : Type := list (String.string * Z).

(** Modelled from the spec: the class [RegisterSet] is not in these
    sources.  Per architecture it records the program counter and stack
    pointer names, an optional frame pointer, the return-address chain,
    the flag registers with their bit definitions, the general-purpose
    and miscellaneous names, the common subset and an optional
    return-value register. *)
Record t : Type := {
  pc : String.string;
  stack : String.string;
  frame : option String.string;
  retaddr : list String.string;
  flags : list (String.string * BitFlags);
  extra_flags : list (String.string * BitFlags);
  gpr : list String.string;
  misc : list String.string;
  common : list String.string;
  retval : option String.string
}.

End RegisterSet.

(** ** The [Debugger] interface, as far as registers go

    [pwndbg.dbg] is not part of these sources.  [by_name] is
    [frame.regs().by_name(name)]; [cast_int v n] is [int(v.cast(t))] for
    the unsigned type [t] of [n] bytes, [None] when the engine raises
    [ValueError] or [Error]; [reg_write] is [Frame.reg_write]. *)
Class Debugger : Type := {
  dbg : Type;
  dbg_frame : Type;
  dbg_value : Type;
  selected_frame : dbg -> option dbg_frame;
  by_name : dbg -> dbg_frame -> String.string -> option dbg_value;
  sizeof : dbg_value -> Z;
  cast_int : dbg_value -> Z -> option Z;
  reg_write : dbg -> dbg_frame -> String.string -> Z -> dbg * result unit;
  arch_name : dbg -> String.string;
  arch_ptrsize : dbg -> Z;
  ulong_sizeof : dbg -> Z;
  reg_sets : String.string -> option RegisterSet.t
}.

(** ** Python [str] methods and the regular expression of [fix] *)

Module str.

Definition upper_char (c : ascii) : ascii :=
  let n := nat_of_ascii c in
  if ((97 <=? n) && (n <=? 122))%nat then ascii_of_nat (n - 32) else c.

Definition lower_char (c : ascii) : ascii :=
  let n := nat_of_ascii c in
  if ((65 <=? n) && (n <=? 90))%nat then ascii_of_nat (n + 32) else c.

Fixpoint upper (s : String.string) : String.string :=
  match s with
  | EmptyString => EmptyString
  | String c s' => String (upper_char c) (upper s')
  end.

Fixpoint lower (s : String.string) : String.string :=
  match s with
  | EmptyString => EmptyString
  | String c s' => String (lower_char c) (lower s')
  end.

(** [s.lstrip("$")] *)
Fixpoint lstrip_dollar (s : String.string) : String.string :=
  match s with
  | EmptyString => EmptyString
  | String c s' => if Ascii.eqb c "$" then lstrip_dollar s' else s
  end.

End str.

Module re.

(** [\w] of a [str] pattern, for the code points below 256 that a
    character of this model is: the underscore and what [str.isalnum]
    accepts, that is the ASCII letters and digits and, above them, the
    letters and numbers of Latin-1 (all of 192..255 but the signs at 215
    and 247). *)
Definition is_word (c : ascii) : bool :=
  let n := nat_of_ascii c in
  (((48 <=? n) && (n <=? 57)) || ((65 <=? n) && (n <=? 90))
   || ((97 <=? n) && (n <=? 122)) || (n =? 95)
   || (n =? 170) || (n =? 178) || (n =? 179) || (n =? 181)
   || (n =? 185) || (n =? 186) || ((188 <=? n) && (n <=? 190))
   || ((192 <=? n) && (n <=? 214)) || ((216 <=? n) && (n <=? 246))
   || ((248 <=? n) && (n <=? 255)))%nat.

Definition is_word_opt (o : option ascii) : bool :=
  match o with
  | Some c => is_word c
  | None => false
  end.

(** [\b] between the character before and the character after; the
    ends of the text count as non-word. *)
Definition word_boundary (prev next : option ascii) : bool :=
  xorb (is_word_opt prev) (is_word_opt next).

Fixpoint strip_prefix (lit s : list ascii) : option (list ascii) :=
  match lit, s with
  | [], _ => Some s
  | a :: lit', c :: s' => if Ascii.eqb a c then strip_prefix lit' s' else None
  | _ :: _, [] => None
  end.

Definition last_char (prev : option ascii) (lit : list ascii)
  : option ascii :=
  match rev lit with
  | c :: _ => Some c
  | [] => prev
  end.

(** [\bLIT\b] at the head of [s], [prev] being the character before:
    the number of characters matched. *)
Definition match_lit (lit : list ascii) (prev : option ascii)
    (s : list ascii) : option nat :=
  if word_boundary prev (hd_error s) then
    match strip_prefix lit s with
    | Some rest =>
        if word_boundary (last_char prev lit) (hd_error rest)
        then Some (List.length lit) else None
    | None => None
    end
  else None.

(** [\$?\bLIT\b] at the head of [s]: the optional [$] is greedy, the
    match without it is tried when the match with it fails. *)
Definition match_at (lit : list ascii) (prev : option ascii)
    (s : list ascii) : option nat :=
  match s with
  | c :: s' =>
      if Ascii.eqb c "$" then
        match match_lit lit (Some c) s' with
        | Some n => Some (S n)
        | None => match_lit lit prev s
        end
      else match_lit lit prev s
  | [] => match_lit lit prev s
  end.

(** [re.sub(rf"\$?\b{lit}\b", repl, s)] for a literal [lit] that is not
    empty and has no regular-expression operator in it: leftmost matches
    that do not overlap are replaced.  [skip] counts the characters of
    the current match still to pass over. *)
Fixpoint sub_scan (lit repl : list ascii) (prev : option ascii)
    (skip : nat) (s : list ascii) : list ascii :=
  match s with
  | [] => []
  | c :: rest =>
      match skip with
      | S k => sub_scan lit repl (Some c) k rest
      | O =>
          match match_at lit prev s with
          | Some (S k) => repl ++ sub_scan lit repl (Some c) k rest
          | _ => c :: sub_scan lit repl (Some c) O rest
          end
      end
  end.

Definition sub_register (regname expression : String.string)
  : String.string :=
  let lit := list_ascii_of_string regname in
  string_of_list_ascii
    (sub_scan lit ("$"%char :: lit) None O (list_ascii_of_string expression)).

(** The passes of [fix] over a text, one [re.sub] per name, on
    characters. *)
Definition passes (order : list (list ascii)) (s : list ascii)
  : list ascii :=
  fold_left (fun x lit => sub_scan lit ("$"%char :: lit) None O x) order s.

End re.

(** ** The register facade, [pwndbg/aglib/regs.py] *)

Module regs.

(** A [Dict[str, int | None]], in insertion order. *)
Definition dict : Type := list (String.string * option Z).

Fixpoint dict_get (k : String.string) (d : dict) : option (option Z) :=
  match d with
  | [] => None
  | (k', v) :: d' => if String.eqb k' k then Some v else dict_get k d'
  end.

(** [d[k] = v]: a present key keeps its place, a new key goes last. *)
Fixpoint dict_set (k : String.string) (v : option Z) (d : dict) : dict :=
  match d with
  | [] => [(k, v)]
  | (k', v') :: d' =>
      if String.eqb k' k then (k', v) :: d' else (k', v') :: dict_set k v d'
  end.

(** The values assigned to attributes of the facade: integers,
    dictionaries and [None]. *)
Inductive pyval : Type :=
| VInt (z : Z)
| VDict (d : dict)
| VNone.

(** [int(val)] *)
Definition int (val : pyval) : result Z :=
  match val with
  | VInt z => Ret z
  | VDict _ => Raise TypeError
  | VNone => Raise TypeError
  end.

(** The two Python attributes of the facade object. *)
Record module : Type := {
  previous : pyval;
  last : pyval
}.

(** [previous] and [last] of the class body. *)
Definition initial : module := {| previous := VDict []; last := VDict [] |}.

Definition opt_eqb (a b : option Z) : bool :=
  match a, b with
  | Some x, Some y => x =? y
  | None, None => true
  | _, _ => false
  end.

Section Facade.
Context {D : Debugger}.

Definition ptrmask (e : dbg) : Z := Arch.ptrmask (arch_ptrsize e).

(** [get_register(name)] *)
Definition get_register (e : dbg) (name : String.string)
  : option dbg_value :=
  match selected_frame e with
  | None => None
  | Some frame =>
      match by_name e frame name with
      | Some value => Some value
      | None => by_name e frame (str.upper name)
      end
  end.

(** Modelled from the spec: [pwndbg.aglib.typeinfo.unsigned] is not in
    these sources; it has an unsigned type for the sizes 1, 2, 4 and 8,
    and [get] falls back to [ulong] for any other size. *)
Definition unsigned_get (e : dbg) (size : Z) : Z :=
  if (size =? 1) || (size =? 2) || (size =? 4) || (size =? 8) then size
  else ulong_sizeof e.

(** The body of [__getattr__] up to [int_value], for an [attr] already
    stripped of its [$]. *)
Definition int_value (e : dbg) (attr : String.string) : option Z :=
  let value := get_register e attr in
  let value :=
    match value with
    | None =>
        if String.eqb (str.lower attr) "xpsr" then get_register e "xPSR"
        else None
    | Some _ => value
    end in
  match value with
  | None => None
  | Some v => cast_int v (unsigned_get e (sizeof v))
  end.

(** [module.__getattr__(attr)].  The values are read through: the
    decorator [cache_until("stop", "prompt")] only memoises them between
    two events.  [self.cs] is this method again, on a name that is not
    [pc]. *)
Definition __getattr__ (e : dbg) (attr : String.string) : option Z :=
  let attr := str.lstrip_dollar attr in
  match int_value e attr with
  | None => None
  | Some v =>
      if String.eqb attr "pc" && String.eqb (arch_name e) "i8086" then
        match int_value e "cs" with
        | None => None
        | Some cs => Some (Z.land (v + Z.land cs (ptrmask e) * 16) (ptrmask e))
        end
      else Some (Z.land v (ptrmask e))
  end.

(** [module.__setattr__(attr, val)] *)
Definition __setattr__ (e : dbg) (m : module) (attr : String.string)
    (val : pyval) : dbg * module * result unit :=
  if String.eqb attr "last" then
    (e, {| previous := previous m; last := val |}, Ret tt)
  else if String.eqb attr "previous" then
    (e, {| previous := val; last := last m |}, Ret tt)
  else
    match selected_frame e with
    | None => (e, m, Raise AttributeError)
    | Some frame =>
        match int val with
        | Raise ex => (e, m, Raise ex)
        | Ret z => let (e', r) := reg_write e frame attr z in (e', m, r)
        end
    end.

(** [module.__getitem__(item)] for a [str] item that names a register
    (not one of the attributes the class defines itself, for which
    Python does not call [__getattr__]). *)
Definition __getitem__ (e : dbg) (item : String.string) : option Z :=
  let item := str.lstrip_dollar item in
  match __getattr__ e (str.lower item) with
  | Some v => Some (Z.land v (ptrmask e))
  | None => None
  end.

(** [reg_sets[pwndbg.aglib.arch.name]] *)
Definition current (e : dbg) : result RegisterSet.t :=
  match reg_sets (arch_name e) with
  | Some rs => Ret rs
  | None => Raise KeyError
  end.

(** The property [common]. *)
Definition common (e : dbg) : result (list String.string) :=
  match current e with
  | Ret rs => Ret (RegisterSet.common rs)
  | Raise ex => Raise ex
  end.

Definition opt_list {A : Type} (o : option A) : list A :=
  match o with
  | Some a => [a]
  | None => []
  end.

(** The names of a register set in the order of the property [all]. *)
Definition all_of (rs : RegisterSet.t) : list String.string :=
  [RegisterSet.pc rs] ++ [RegisterSet.stack rs]
  ++ opt_list (RegisterSet.frame rs)
  ++ RegisterSet.retaddr rs
  ++ map fst (RegisterSet.flags rs)
  ++ RegisterSet.gpr rs
  ++ RegisterSet.misc rs.

(** The property [all]. *)
Definition all (e : dbg) : result (list String.string) :=
  match current e with
  | Ret rs => Ret (all_of rs)
  | Raise ex => Raise ex
  end.

(** [module.fix(expression)].  [set_order] is the order in which Python
    iterates over the set built from a list. *)
Definition fix_ (set_order : list String.string -> list String.string)
    (e : dbg) (expression : String.string) : result String.string :=
  match all e with
  | Raise ex => Raise ex
  | Ret names =>
      Ret (fold_left (fun expression regname =>
                        re.sub_register regname expression)
             (set_order (names ++ ["sp"; "pc"]%string)) expression)
  end.

(** The property [changed]. *)
Definition changed (e : dbg) (m : module) : result (list String.string) :=
  match previous m with
  | VDict d =>
      Ret (map fst
             (filter (fun kv => negb (opt_eqb (__getitem__ e (fst kv)) (snd kv)))
                d))
  | _ => Raise AttributeError
  end.

(** [{k: M[k] for k in keys}] *)
Definition snapshot (e : dbg) (keys : list String.string) : dict :=
  fold_left (fun d k => dict_set k (__getitem__ e k) d) keys [].

(** [update_last()], the handler of the events [CONTINUE] and [STOP].
    Both assignments go through [__setattr__]; [previous] is assigned
    before [M.common] is looked up. *)
Definition update_last (e : dbg) (m : module) : module * result unit :=
  let '(_, m1, _) := __setattr__ e m "previous" (last m) in
  match common e with
  | Raise ex => (m1, Raise ex)
  | Ret keys =>
      let '(_, m2, _) := __setattr__ e m1 "last" (VDict (snapshot e keys)) in
      (m2, Ret tt)
  end.

End Facade.

End regs.

(** ** [pwndbg/aglib/arch.py] *)

Module arch.

Section Thumb.
Context {D : Debugger}.

(** Modelled from the spec: [pwndbg.lib.arch.Arch] is not in these
    sources; its [current] is the identifier of the architecture. *)
Definition current (e : dbg) : String.string := arch_name e.

(** [read_thumb_bit()] *)
Definition read_thumb_bit (e : dbg) : option Z :=
  if String.eqb (current e) "arm" then
    match regs.__getattr__ e "cpsr" with
    | Some cpsr => Some (Z.land (Z.shiftr cpsr 5) 1)
    | None => None
    end
  else if String.eqb (current e) "armcm" then
    match regs.__getattr__ e "xpsr" with
    | Some xpsr => Some (Z.land (Z.shiftr xpsr 24) 1)
    | None => None
    end
  else None.

(** [get_thumb_mode_string()] *)
Definition get_thumb_mode_string (e : dbg) : option String.string :=
  match read_thumb_bit e with
  | None => None
  | Some thumb_bit =>
      if thumb_bit =? 1 then Some "thumb"%string else Some "arm"%string
  end.

End Thumb.

End arch.

(** ** A small debugger, for running the facade on concrete inputs *)

Module toy.

(** One frame at most; a register is a raw integer and its size in
    bytes. *)
Record state : Type := {
  has_frame : bool;
  file : list (String.string * (Z * Z));
  name : String.string;
  ptrsize : Z
}.

Fixpoint find {A : Type} (k : String.string) (l : list (String.string * A))
  : option A :=
  match l with
  | [] => None
  | (k', a) :: l' => if String.eqb k' k then Some a else find k l'
  end.

Fixpoint assign (k : String.string) (z : Z) (l : list (String.string * (Z * Z)))
  : option (list (String.string * (Z * Z))) :=
  match l with
  | [] => None
  | (k', (v, n)) :: l' =>
      if String.eqb k' k then Some ((k', (z, n)) :: l')
      else match assign k z l' with
           | Some l'' => Some ((k', (v, n)) :: l'')
           | None => None
           end
  end.

Definition write_register (s : state) (f : unit) (k : String.string) (z : Z)
  : state * result unit :=
  match assign k z (file s) with
  | Some file' =>
      ({| has_frame := has_frame s; file := file';
          name := name s; ptrsize := ptrsize s |}, Ret tt)
  | None => (s, Raise Error)
  end.

(** The register sets of two architectures, after [pwndbg.lib.regs]. *)
Definition i386 : RegisterSet.t := {|
  RegisterSet.pc := "eip";
  RegisterSet.stack := "esp";
  RegisterSet.frame := Some "ebp"%string;
  RegisterSet.retaddr := [];
  RegisterSet.flags := [("eflags", [("CF", 0); ("PF", 2); ("ZF", 6)])]%string;
  RegisterSet.extra_flags := [];
  RegisterSet.gpr := ["eax"; "ebx"; "ecx"; "edx"; "edi"; "esi"]%string;
  RegisterSet.misc := ["cs"; "ss"; "ds"; "es"; "fs"; "gs"]%string;
  RegisterSet.common :=
    ["eax"; "ebx"; "ecx"; "edx"; "edi"; "esi"; "ebp"; "esp"; "eip"]%string;
  RegisterSet.retval := Some "eax"%string
|}.

Definition arm : RegisterSet.t := {|
  RegisterSet.pc := "pc";
  RegisterSet.stack := "sp";
  RegisterSet.frame := None;
  RegisterSet.retaddr := ["lr"]%string;
  RegisterSet.flags := [("cpsr", [("T", 5)])]%string;
  RegisterSet.extra_flags := [];
  RegisterSet.gpr := ["r0"; "r1"; "r2"; "r3"]%string;
  RegisterSet.misc := [];
  RegisterSet.common := ["r0"; "r1"; "r2"; "r3"; "sp"; "pc"; "lr"]%string;
  RegisterSet.retval := Some "r0"%string
|}.

Definition catalog (n : String.string) : option RegisterSet.t :=
  if String.eqb n "i386" then Some i386
  else if String.eqb n "arm" then Some arm
  else if String.eqb n "armcm" then Some arm
  else None.

#[export] Instance debugger : Debugger := {
  dbg := state;
  dbg_frame := unit;
  dbg_value := Z * Z;
  selected_frame := fun s => if has_frame s then Some tt else None;
  by_name := fun s _ k => find k (file s);
  sizeof := snd;
  cast_int := fun v n => Some (fst v mod 2 ^ (8 * n));
  reg_write := write_register;
  arch_name := name;
  arch_ptrsize := ptrsize;
  ulong_sizeof := ptrsize;
  reg_sets := catalog
}.

Definition x86 (eax ebx : Z) : state := {|
  has_frame := true;
  file := [("eax", (eax, 4)); ("ebx", (ebx, 4)); ("ecx", (0, 4));
           ("edx", (0, 4)); ("edi", (0, 4)); ("esi", (0, 4));
           ("ebp", (0, 4)); ("esp", (0xffffd000, 4));
           ("eip", (0x8048000, 4))]%string;
  name := "i386";
  ptrsize := 4
|}.

Definition machine (arch : String.string) (psize : Z)
    (rs : list (String.string * (Z * Z))) : state :=
  {| has_frame := true; file := rs; name := arch; ptrsize := psize |}.

End toy.

(** ** Breakpoints on conditional branches, [pwndbg/commands/branch.py] *)

Module branch.

(** [capstone.CS_GRP_JUMP] *)
Definition CS_GRP_JUMP : Z := 1.

(** A decoded instruction, as far as the command looks at it. *)
Record instruction : Type := {
  address : Z;
  mnemonic : String.string;
  op_str : String.string;
  groups : list Z
}.

(** What [gdb.parse_and_eval] gives the command: the integer of
    [value.address] when the value has an address, and [int(value)],
    which can raise. *)
Record value : Type := {
  value_address : option Z;
  value_int : result Z
}.

(** The collaborators of the command.  [int0] is [int(branch, 0)], with
    [None] for its [ValueError]; [one] is [pwndbg.disasm.one];
    [for_current_arch] is
    [DisassemblyAssistant.for_current_arch()], an assistant being its
    method [condition]. *)
Class Env : Type := {
  int0 : String.string -> option Z;
  parse_and_eval : String.string -> result value;
  one : Z -> option instruction;
  for_current_arch : option (instruction -> option Z)
}.

(** What the command prints. *)
Inductive message : Type :=
| warn_no_address (branch : String.string)
| error_unresolved (branch : String.string) (e : exn)
| error_not_a_branch (mnemonic op_str : String.string) (address : Z)
| error_unsupported.

(** [BreakOnConditionalBranch(instruction, taken)].  The constructor of
    [gdb.Breakpoint], which places the breakpoint at
    ["*%#x" % instruction.address], is GDB's own and is read through. *)
Record BreakOnConditionalBranch : Type := {
  bp_instruction : instruction;
  taken : bool
}.

(** How [install_breakpoint] ends: with a breakpoint, with a plain
    [return], or with an exception. *)
Inductive outcome : Type :=
| Installed (bp : BreakOnConditionalBranch)
| Returned
| Failed (e : exn).

Definition in_groups (g : Z) (gs : list Z) : bool :=
  existsb (Z.eqb g) gs.

Section Command.
Context {env : Env}.

(** [BreakOnConditionalBranch.stop()] *)
Definition stop (self : BreakOnConditionalBranch) : result bool :=
  match for_current_arch with
  | None => Raise AttributeError
  | Some condition =>
      let condition_met :=
        match condition (bp_instruction self) with
        | None => 1
        | Some c => c
        end in
      let condition_met := negb (condition_met =? 0) in
      Ret (Bool.eqb condition_met (taken self))
  end.

(** The part of [install_breakpoint] after the address is known.  The
    format ["%#p"] of the first message is not one Python has: building
    that message is a [ValueError]. *)
Definition install_at (address : Z) (taken : bool)
    (printed : list message) : list message * outcome :=
  match one address with
  | None => (printed, Failed ValueError)
  | Some instruction =>
      if negb (in_groups CS_GRP_JUMP (groups instruction)) then
        (printed ++ [error_not_a_branch (mnemonic instruction)
                       (op_str instruction) address], Returned)
      else
        match for_current_arch with
        | None => (printed ++ [error_unsupported], Returned)
        | Some _ =>
            (printed,
             Installed {| bp_instruction := instruction; taken := taken |})
        end
  end.

(** [install_breakpoint(branch, taken)].  Inside the [try] only
    [gdb.error] is caught. *)
Definition install_breakpoint (branch : String.string) (taken : bool)
  : list message * outcome :=
  match int0 branch with
  | Some address => install_at address taken []
  | None =>
      match parse_and_eval branch with
      | Raise e =>
          if is_Error e then ([error_unresolved branch e], Returned)
          else ([], Failed e)
      | Ret v =>
          match value_address v with
          | None =>
              match value_int v with
              | Ret address =>
                  install_at address taken [warn_no_address branch]
              | Raise e =>
                  if is_Error e
                  then ([warn_no_address branch; error_unresolved branch e],
                        Returned)
                  else ([warn_no_address branch], Failed e)
              end
          | Some address => install_at address taken []
          end
      end
  end.

(** [break_if_taken(branch)] and [break_if_not_taken(branch)] *)
Definition break_if_taken (branch : String.string) :=
  install_breakpoint branch true.
Definition break_if_not_taken (branch : String.string) :=
  install_breakpoint branch false.

End Command.

End branch.

(** ** Scripted consoles and a scripted disassembler *)

Module consoles.

(** The output of [info win] in TUI mode that the docstring of
    [get_cmd_window_size] shows. *)
Definition info_win_tui : String.string :=
  "Name       Lines Columns Focus
src           77     104 (has focus)
cmd           77     105".

(** The output of [info win] outside TUI mode. *)
Definition info_win_plain : String.string := "The TUI is not active.".

Definition tui : gdb.GDB.Console := {|
  gdb.GDB.execute := fun command =>
    if String.eqb command "info win" then Ret info_win_tui else Raise Error
|}.

Definition plain : gdb.GDB.Console := {|
  gdb.GDB.execute := fun command =>
    if String.eqb command "info win" then Ret info_win_plain else Raise Error
|}.

End consoles.

Module program.

Definition jne : branch.instruction := {|
  branch.address := 0x401000;
  branch.mnemonic := "jne";
  branch.op_str := "0x401020";
  branch.groups := [1; 7]
|}.

Definition mov : branch.instruction := {|
  branch.address := 0x401002;
  branch.mnemonic := "mov";
  branch.op_str := "eax, ebx";
  branch.groups := []
|}.

(** Two instructions; the text [0x401000] and the like are literals,
    [main] is a symbol with an address; the condition of [jne] holds. *)
#[export] Instance env : branch.Env := {
  branch.int0 := fun s =>
    if String.eqb s "0x401000" then Some 0x401000
    else if String.eqb s "0x401002" then Some 0x401002
    else if String.eqb s "0x500000" then Some 0x500000
    else None;
  branch.parse_and_eval := fun s =>
    if String.eqb s "main"
    then Ret {| branch.value_address := Some 0x401000;
                branch.value_int := Raise Error |}
    else Raise Error;
  branch.one := fun a =>
    if a =? 0x401000 then Some jne
    else if a =? 0x401002 then Some mov
    else None;
  branch.for_current_arch := Some (fun i => Some 1)
}.

End program.

(** ** Vocabulary of the stated properties *)

Module spec.

(** *** Memory *)

Section Pages.
Context {P : Process}.

Definition readable_page (inf : inferior) (a : Z) : Prop :=
  exists bs, memory.read inf a 1 false = Ret bs.

(** Exactly [N] consecutive readable pages from [start] upwards: the
    pages [start], ..., [start + (N-1) * PAGE_SIZE] can be read and the
    read of the next one fails. *)
Definition pages_up (inf : inferior) (start N : Z) : Prop :=
  (forall i, 0 <= i < N -> readable_page inf (start + i * memory.PAGE_SIZE))
  /\ memory.read inf (start + N * memory.PAGE_SIZE) 1 false = Raise Error.

(** The same downwards: [start], ..., [start - (N-1) * PAGE_SIZE]. *)
Definition pages_down (inf : inferior) (start N : Z) : Prop :=
  (forall i, 0 <= i < N -> readable_page inf (start - i * memory.PAGE_SIZE))
  /\ memory.read inf (start - N * memory.PAGE_SIZE) 1 false = Raise Error.

End Pages.

(** *** Address formatting *)

Fixpoint zeros (n : nat) : String.string :=
  match n with
  | O => EmptyString
  | S n' => String "0" (zeros n')
  end.

(** The hexadecimal digits of the masked address, padded with zeros to
    two digits per pointer byte. *)
Definition zero_padded_hex (ptrsize address : Z) : String.string :=
  let digits := gdb.GDB.hex_digits (Z.land address (Arch.ptrmask ptrsize)) in
  (zeros (Z.to_nat (2 * ptrsize) - String.length digits) ++ digits)%string.

Fixpoint all_spaces (s : String.string) : bool :=
  match s with
  | EmptyString => true
  | String c s' => Ascii.eqb c " " && all_spaces s'
  end.

(** *** Numbers in the output of [info win] *)

(** A text of ASCII digits, at least one. *)
Definition digit_text (s : String.string) : bool :=
  match list_ascii_of_string s with
  | [] => false
  | cs => forallb text.is_ascii_digit cs
  end.

(** The number a text of digits denotes in base ten. *)
Definition decimal (s : String.string) : Z :=
  fold_left (fun acc c => 10 * acc + (Z.of_nat (nat_of_ascii c) - 48))
    (list_ascii_of_string s) 0.

(** *** Register names in an expression *)

(** The longest run of word characters at the head of [s]. *)
Fixpoint take_word (s : list ascii) : list ascii :=
  match s with
  | c :: s' => if re.is_word c then c :: take_word s' else []
  | [] => []
  end.

(** Every character but the [$]. *)
Definition not_dollar (c : ascii) : bool := negb (Ascii.eqb c "$").

Definition is_dollar (o : option ascii) : bool :=
  match o with
  | Some c => Ascii.eqb c "$"
  | None => false
  end.

Fixpoint chars_eqb (a b : list ascii) : bool :=
  match a, b with
  | [], [] => true
  | x :: a', y :: b' => Ascii.eqb x y && chars_eqb a' b'
  | _, _ => false
  end.

Definition mem (w : list ascii) (names : list (list ascii)) : bool :=
  existsb (chars_eqb w) names.

(** A [$] goes in front of every maximal word (a run of word characters
    that starts after a non-word character and extends as far as it can)
    that is one of [names] and does not have a [$] in front of it yet;
    every other character stays. *)
Fixpoint prefix_registers (names : list (list ascii)) (prev : option ascii)
    (s : list ascii) : list ascii :=
  match s with
  | [] => []
  | c :: rest =>
      if re.is_word c && negb (re.is_word_opt prev) && negb (is_dollar prev)
         && mem (c :: take_word rest) names
      then "$"%char :: c :: prefix_registers names (Some c) rest
      else c :: prefix_registers names (Some c) rest
  end.

Definition rewrite_registers (names : list String.string)
    (expression : String.string) : String.string :=
  string_of_list_ascii
    (prefix_registers (map list_ascii_of_string names) None
       (list_ascii_of_string expression)).

(** A register name that [fix] can put into its pattern as it is: not
    empty and made of word characters. *)
Definition identifier (name : String.string) : bool :=
  match list_ascii_of_string name with
  | [] => false
  | cs => forallb re.is_word cs
  end.

(** *** Change tracking *)

Definition add_key (ks : list String.string) (k : String.string)
  : list String.string :=
  if existsb (String.eqb k) ks then ks else ks ++ [k].

(** The names of a list in order of first occurrence. *)
Definition keys_of (l : list String.string) : list String.string :=
  fold_left add_key l [].

Section Events.
Context {D : Debugger}.

(** The states of the facade that a run of [CONTINUE] and [STOP] events
    produces, on an architecture whose register set is [rs]. *)
Inductive reachable (rs : RegisterSet.t) : regs.module -> Prop :=
| reach_initial : reachable rs regs.initial
| reach_event (e : dbg) (m : regs.module) :
    reachable rs m ->
    reg_sets (arch_name e) = Some rs ->
    reachable rs (fst (regs.update_last e m)).

(** Whether the value of [r] now differs from its value in [d]; a
    register without a value in [d] does not count. *)
Definition differs (e : dbg) (d : regs.dict) (r : String.string) : bool :=
  match regs.dict_get r d with
  | Some v => negb (regs.opt_eqb (regs.__getitem__ e r) v)
  | None => false
  end.

(** A dictionary whose values are the readings of its keys in [e]. *)
Definition readings (e : dbg) (ks : list String.string) : regs.dict :=
  map (fun k => (k, regs.__getitem__ e k)) ks.

(** A generation of the cache: empty, or the readings of the common
    registers in some state of the debugger. *)
Definition generation (rs : RegisterSet.t) (v : regs.pyval) : Prop :=
  v = regs.VDict []
  \/ exists e0,
       v = regs.VDict (readings e0 (keys_of (RegisterSet.common rs))).

(** Two states of the debugger in which every register reads the same. *)
Definition same_registers (e1 e2 : dbg) : Prop :=
  forall r, regs.__getitem__ e1 r = regs.__getitem__ e2 r.

End Events.

End spec.

(** ** A scripted GDB, for running the adapter on concrete inputs *)

Module scripted.

(** The expression ["1 +"] does not parse, thread 2 has no stack; an
    expression that parses evaluates to the number of the selected
    frame. *)
#[export] Instance api : gdb.Api := {
  gdb.value := Z;
  gdb.parse_and_eval := fun f expression =>
    if String.eqb expression "1 +" then Raise Error
    else match f with
         | Some n => Ret (Z.of_nat n)
         | None => Raise Error
         end;
  gdb.newest_frame := fun t =>
    match t with
    | Some 2%nat => Raise Error
    | Some n => Ret (10 * n)%nat
    | None => Raise Error
    end
}.

End scripted.

(** * Properties *)

(** ** Memory helpers *)

Section MemoryFacts.
Context {P : Process}.

Lemma index_zero_first (pre post : list Z) :
  ~ In 0 pre -> memory.index_zero (pre ++ 0 :: post) = Some (List.length pre).
Proof.
  induction pre as [|b pre IH]; intros Hpre; simpl.
  - reflexivity.
  - destruct (Z.eqb_spec b 0) as [->|_].
    + exfalso. apply Hpre. now left.
    + rewrite IH; [reflexivity|]. intros H. apply Hpre. now right.
Qed.

Lemma index_zero_absent (bs : list Z) :
  ~ In 0 bs -> memory.index_zero bs = None.
Proof.
  induction bs as [|b bs IH]; intros Hbs; simpl.
  - reflexivity.
  - destruct (Z.eqb_spec b 0) as [->|_].
    + exfalso. apply Hbs. now left.
    + rewrite IH; [reflexivity|]. intros H. apply Hbs. now right.
Qed.

Lemma firstn_prefix (pre post : list Z) :
  firstn (List.length pre) (pre ++ post) = pre.
Proof.
  induction pre as [|b pre IH]; simpl.
  - reflexivity.
  - now rewrite IH.
Qed.

(** [peek] answers [None] or a string of one character, which is true. *)
Lemma peek_truthy (inf : inferior) (addr : Z) :
  truthy (memory.peek inf addr) = true <-> memory.peek inf addr <> None.
Proof.
  unfold memory.peek.
  destruct (memory.read inf addr 1 false) as [[|b bs]|e]; simpl;
    split; congruence.
Qed.

Lemma peek_none_falsy (inf : inferior) (addr : Z) :
  memory.peek inf addr = None -> truthy (memory.peek inf addr) = false.
Proof. intros ->. reflexivity. Qed.

(** C2, as amended: [string(addr, max)] returns an empty result without
    raising when the probe [peek(addr)] fails.  Otherwise, when the read
    of up to [max] bytes (short results allowed) returns, the result is
    the part of the read before its first zero byte, and it is empty,
    not the whole read, when the read has no zero byte. *)
Theorem string_truncates_or_empty (inf : inferior) (addr max : Z) :
  (memory.peek inf addr = None -> memory.string inf addr max = Ret [])
  /\ (forall bs pre post,
        memory.peek inf addr <> None ->
        memory.read inf addr max true = Ret bs ->
        bs = pre ++ 0 :: post -> ~ In 0 pre ->
        memory.string inf addr max = Ret pre)
  /\ (forall bs,
        memory.peek inf addr <> None ->
        memory.read inf addr max true = Ret bs ->
        ~ In 0 bs ->
        memory.string inf addr max = Ret []).
Proof.
  unfold memory.string. repeat split.
  - intros H. now rewrite (peek_none_falsy _ _ H).
  - intros bs pre post Hp Hr -> Hpre.
    apply peek_truthy in Hp. rewrite Hp, Hr.
    rewrite (index_zero_first _ _ Hpre). now rewrite firstn_prefix.
  - intros bs Hp Hr Hbs.
    apply peek_truthy in Hp. rewrite Hp, Hr.
    now rewrite (index_zero_absent _ Hbs).
Qed.

(** [poke] on an address that cannot be read. *)
Lemma poke_unreadable (inf : inferior) (address : Z) :
  memory.peek inf address = None -> memory.poke inf address = (inf, false).
Proof. unfold memory.poke. now intros ->. Qed.

(** What [poke] hands to [write_memory]: the UTF-8 encoding of the
    character made from the byte, one byte below 0x80 and two from
    there on. *)
Lemma poke_writes_encoding (inf : inferior) (address b : Z) :
  memory.peek inf address = Some [b] -> 0 <= b < 256 ->
  memory.poke inf address =
    let bytes :=
      if b <? 0x80 then [b]
      else [Z.lor 0xC0 (Z.shiftr b 6); Z.lor 0x80 (Z.land b 0x3F)] in
    match write_memory inf address bytes false with
    | (inf', Ret _) => (inf', true)
    | (inf', Raise _) => (inf', false)
    end.
Proof.
  intros Hp Hb. unfold memory.poke, memory.write. rewrite Hp.
  cbn [memory.utf8_encode]. unfold memory.utf8_encode_char.
  destruct (Z.ltb_spec b 0x80).
  - reflexivity.
  - destruct (Z.ltb_spec b 0x800); [reflexivity | lia].
Qed.

End MemoryFacts.

(** Witness of C2: a terminated string, an unterminated one and an
    unreadable address. *)
Lemma string_truncates_or_empty_witness :
  memory.string (P := flat.process)
    (flat.region 0x1000 [0x41; 0x42; 0; 0x43] false) 0x1000 4096
    = Ret [0x41; 0x42]
  /\ memory.string (P := flat.process)
       (flat.region 0x1000 [0x41; 0x42] false) 0x1000 2 = Ret []
  /\ memory.string (P := flat.process)
       (flat.region 0x1000 [0x41; 0x42] false) 0x2000 2 = Ret [].
Proof.
  split; [|split].
  - apply (proj1 (proj2 (string_truncates_or_empty (P := flat.process)
             (flat.region 0x1000 [0x41; 0x42; 0; 0x43] false) 0x1000 4096))
             [0x41; 0x42; 0; 0x43] [0x41; 0x42] [0x43]).
    + discriminate.
    + reflexivity.
    + reflexivity.
    + simpl. intros [H|[H|[]]]; discriminate H.
  - apply (proj2 (proj2 (string_truncates_or_empty (P := flat.process)
             (flat.region 0x1000 [0x41; 0x42] false) 0x1000 2))
             [0x41; 0x42]).
    + discriminate.
    + reflexivity.
    + simpl. intros [H|[H|[]]]; discriminate H.
  - apply (proj1 (string_truncates_or_empty (P := flat.process)
             (flat.region 0x1000 [0x41; 0x42] false) 0x2000 2)).
    reflexivity.
Defined.

(** C2 as stated fails: two readable bytes without a zero byte and a
    bound of two.  The bounded read returns both bytes; [string] returns
    the empty result, not the bounded read. *)
Lemma string_without_zero_counterexample :
  let inf := flat.region 0x1000 [0x41; 0x42] false in
  memory.peek (P := flat.process) inf 0x1000 = Some [0x41]
  /\ memory.read (P := flat.process) inf 0x1000 2 true = Ret [0x41; 0x42]
  /\ ~ In 0 [0x41; 0x42]
  /\ memory.string (P := flat.process) inf 0x1000 2 = Ret []
  /\ memory.string (P := flat.process) inf 0x1000 2 <> Ret [0x41; 0x42].
Proof.
  cbv zeta. repeat split; try reflexivity.
  - simpl. intros [H|[H|[]]]; discriminate H.
  - discriminate.
Qed.

(** C3 at the failing input: a writable byte 0xFF at 0x1000 followed by
    0x41.  [poke] reports success, and afterwards the two addresses
    hold 0xC3 and 0xBF: the byte was written back as the two bytes of
    the UTF-8 encoding of the character U+00FF. *)
Theorem poke_rewrites_high_byte :
  let inf := flat.region 0x1000 [0xFF; 0x41] true in
  flat.byte_at inf 0x1000 = Some 0xFF
  /\ flat.byte_at inf 0x1001 = Some 0x41
  /\ snd (memory.poke (P := flat.process) inf 0x1000) = true
  /\ flat.byte_at (fst (memory.poke (P := flat.process) inf 0x1000)) 0x1000
     = Some 0xC3
  /\ flat.byte_at (fst (memory.poke (P := flat.process) inf 0x1000)) 0x1001
     = Some 0xBF.
Proof. cbv zeta. repeat split; reflexivity. Qed.

(** ** Boundary search *)

Section BoundaryFacts.
Context {P : Process}.

Lemma pages_up_here (inf : inferior) (a N : Z) :
  0 < N -> spec.pages_up inf a N ->
  exists bs, memory.read inf a 1 false = Ret bs.
Proof.
  intros HN [Hr _]. destruct (Hr 0) as [bs Hbs]; [lia|].
  exists bs. now rewrite Z.mul_0_l, Z.add_0_r in Hbs.
Qed.

Lemma pages_up_next (inf : inferior) (a N : Z) :
  0 < N -> spec.pages_up inf a N ->
  spec.pages_up inf (a + memory.PAGE_SIZE) (N - 1).
Proof.
  intros HN [Hr Hf]. split.
  - intros i Hi. destruct (Hr (i + 1)) as [bs Hbs]; [lia|]. exists bs.
    rewrite <- Hbs. f_equal; unfold memory.PAGE_SIZE; lia.
  - rewrite <- Hf. f_equal; unfold memory.PAGE_SIZE; lia.
Qed.

Lemma pages_down_here (inf : inferior) (a N : Z) :
  0 < N -> spec.pages_down inf a N ->
  exists bs, memory.read inf a 1 false = Ret bs.
Proof.
  intros HN [Hr _]. destruct (Hr 0) as [bs Hbs]; [lia|].
  exists bs. now rewrite Z.mul_0_l, Z.sub_0_r in Hbs.
Qed.

Lemma pages_down_next (inf : inferior) (a N : Z) :
  0 < N -> spec.pages_down inf a N ->
  spec.pages_down inf (a - memory.PAGE_SIZE) (N - 1).
Proof.
  intros HN [Hr Hf]. split.
  - intros i Hi. destruct (Hr (i + 1)) as [bs Hbs]; [lia|]. exists bs.
    rewrite <- Hbs. f_equal; unfold memory.PAGE_SIZE; lia.
  - rewrite <- Hf. f_equal; unfold memory.PAGE_SIZE; lia.
Qed.

(** The upward loop over [N] readable pages with [k] iterations: it
    stops after [min N k] pages, or at the mask once an address passes
    it. *)
Lemma upper_loop_pages (inf : inferior) (ptrmask : Z) :
  forall (k : nat) (a N : Z),
    0 <= N -> spec.pages_up inf a N ->
    memory.upper_loop inf ptrmask k a =
      Ret (let n := Z.min N (Z.of_nat k) in
           if (0 <? n) && (ptrmask <? a + n * memory.PAGE_SIZE)
           then ptrmask else a + n * memory.PAGE_SIZE).
Proof.
  induction k as [|k IH]; intros a N HN Hp.
  - cbn [memory.upper_loop]. replace (Z.min N (Z.of_nat 0)) with 0 by lia.
    cbn; f_equal; lia.
  - cbn [memory.upper_loop]. destruct (Z.eq_dec N 0) as [->|HN0].
    + destruct Hp as [_ Hf]. rewrite Z.mul_0_l, Z.add_0_r in Hf.
      rewrite Hf. cbn [is_Error].
      replace (Z.min 0 (Z.of_nat (S k))) with 0 by lia. cbn; f_equal; lia.
    + destruct (pages_up_here inf a N) as [bs Hbs]; [lia|assumption|].
      rewrite Hbs. cbv zeta.
      assert (Hn : Z.min N (Z.of_nat (S k)) = Z.min (N - 1) (Z.of_nat k) + 1)
        by lia.
      destruct (Z.ltb_spec ptrmask (a + memory.PAGE_SIZE)) as [Hov|Hov].
      * rewrite Hn. f_equal.
        destruct (Z.ltb_spec 0 (Z.min (N - 1) (Z.of_nat k) + 1)); [|lia].
        destruct (Z.ltb_spec ptrmask
                    (a + (Z.min (N - 1) (Z.of_nat k) + 1) * memory.PAGE_SIZE));
          [reflexivity|].
        unfold memory.PAGE_SIZE in *. lia.
      * rewrite (IH (a + memory.PAGE_SIZE) (N - 1));
          [|lia|apply pages_up_next; [lia|assumption]].
        rewrite Hn. cbv zeta. f_equal.
        set (n := Z.min (N - 1) (Z.of_nat k)).
        assert (0 <= n) by (unfold n; lia).
        replace (a + (n + 1) * memory.PAGE_SIZE)
          with (a + memory.PAGE_SIZE + n * memory.PAGE_SIZE)
          by (unfold memory.PAGE_SIZE; lia).
        destruct (Z.ltb_spec 0 n); destruct (Z.ltb_spec 0 (n + 1));
          try lia; cbn [andb].
        replace n with 0 by lia. rewrite Z.mul_0_l, Z.add_0_r.
        destruct (Z.ltb_spec ptrmask (a + memory.PAGE_SIZE)); [lia|reflexivity].
Qed.

(** The downward loop: below zero it answers 0; stopped by a failed
    read it steps one page back up; stopped by the bound it stays. *)
Lemma lower_loop_pages (inf : inferior) :
  forall (k : nat) (a N : Z),
    0 <= N -> spec.pages_down inf a N ->
    memory.lower_loop inf k a =
      Ret (let n := Z.min N (Z.of_nat k) in
           if (0 <? n) && (a - n * memory.PAGE_SIZE <? 0) then 0
           else if N <? Z.of_nat k then a - (N - 1) * memory.PAGE_SIZE
           else a - Z.of_nat k * memory.PAGE_SIZE).
Proof.
  induction k as [|k IH]; intros a N HN Hp.
  - cbn [memory.lower_loop]. replace (Z.min N (Z.of_nat 0)) with 0 by lia.
    cbn [Z.ltb Z.compare andb]. destruct (Z.ltb_spec N (Z.of_nat 0)); [lia|].
    f_equal; cbn; lia.
  - cbn [memory.lower_loop]. destruct (Z.eq_dec N 0) as [->|HN0].
    + destruct Hp as [_ Hf]. rewrite Z.mul_0_l, Z.sub_0_r in Hf.
      rewrite Hf. cbn [is_Error].
      replace (Z.min 0 (Z.of_nat (S k))) with 0 by lia.
      cbn [Z.ltb Z.compare andb].
      destruct (Z.ltb_spec 0 (Z.of_nat (S k))); [|lia].
      f_equal; unfold memory.PAGE_SIZE; lia.
    + destruct (pages_down_here inf a N) as [bs Hbs]; [lia|assumption|].
      rewrite Hbs. cbv zeta.
      assert (Hn : Z.min N (Z.of_nat (S k)) = Z.min (N - 1) (Z.of_nat k) + 1)
        by lia.
      destruct (Z.ltb_spec (a - memory.PAGE_SIZE) 0) as [Hun|Hun].
      * rewrite Hn. f_equal.
        destruct (Z.ltb_spec 0 (Z.min (N - 1) (Z.of_nat k) + 1)); [|lia].
        destruct (Z.ltb_spec
                    (a - (Z.min (N - 1) (Z.of_nat k) + 1) * memory.PAGE_SIZE) 0);
          [reflexivity|].
        unfold memory.PAGE_SIZE in *. lia.
      * rewrite (IH (a - memory.PAGE_SIZE) (N - 1));
          [|lia|apply pages_down_next; [lia|assumption]].
        rewrite Hn. cbv zeta. f_equal.
        set (n := Z.min (N - 1) (Z.of_nat k)).
        assert (0 <= n) by (unfold n; lia).
        replace (a - (n + 1) * memory.PAGE_SIZE)
          with (a - memory.PAGE_SIZE - n * memory.PAGE_SIZE)
          by (unfold memory.PAGE_SIZE; lia).
        destruct (Z.ltb_spec 0 (n + 1)); [|lia]. cbn [andb].
        destruct (Z.ltb_spec 0 n) as [Hn0|Hn0]; cbn [andb].
        -- destruct (Z.ltb_spec (a - memory.PAGE_SIZE - n * memory.PAGE_SIZE) 0);
             [reflexivity|].
           destruct (Z.ltb_spec (N - 1) (Z.of_nat k));
             destruct (Z.ltb_spec N (Z.of_nat (S k))); try lia;
             unfold memory.PAGE_SIZE; lia.
        -- assert (n = 0) by lia.
           replace (a - memory.PAGE_SIZE - n * memory.PAGE_SIZE)
             with (a - memory.PAGE_SIZE) by (unfold memory.PAGE_SIZE; lia).
           destruct (Z.ltb_spec (a - memory.PAGE_SIZE) 0); [lia|].
           destruct (Z.ltb_spec (N - 1) (Z.of_nat k));
             destruct (Z.ltb_spec N (Z.of_nat (S k))); try lia;
             unfold memory.PAGE_SIZE, n in *; lia.
Qed.

(** C7, as amended: with exactly [N] consecutive readable pages in the
    probed direction from the page-aligned start and a bound
    [max_pages], both searches probe one byte per page from the
    page-aligned start.  [find_upper_boundary] returns the start plus
    [min N max_pages] pages, or the pointer mask once a probed address
    passes the mask.  [find_lower_boundary] returns 0 once a probed
    address falls below zero; otherwise the start minus [N - 1] pages
    (the lowest readable page) when [N < max_pages], and the start minus
    [max_pages] pages when the bound ends the search.  Reaching the
    bound does not give the address-space bound. *)
Theorem boundary_search_pages (inf : inferior)
    (ptrmask addr max_pages N : Z) :
  0 <= N -> 0 <= max_pages ->
  let start := memory.page_align addr in
  let n := Z.min N max_pages in
  (spec.pages_up inf start N ->
   memory.find_upper_boundary inf ptrmask addr max_pages =
     Ret (if (0 <? n) && (ptrmask <? start + n * memory.PAGE_SIZE)
          then ptrmask else start + n * memory.PAGE_SIZE))
  /\ (spec.pages_down inf start N ->
      memory.find_lower_boundary inf addr max_pages =
        Ret (if (0 <? n) && (start - n * memory.PAGE_SIZE <? 0) then 0
             else if N <? max_pages
                  then start - (N - 1) * memory.PAGE_SIZE
                  else start - max_pages * memory.PAGE_SIZE)).
Proof.
  intros HN Hm start n. split; intros Hp.
  - unfold memory.find_upper_boundary.
    rewrite (upper_loop_pages inf ptrmask _ _ N HN Hp).
    cbv zeta. rewrite Z2Nat.id by assumption. reflexivity.
  - unfold memory.find_lower_boundary.
    rewrite (lower_loop_pages inf _ _ N HN Hp).
    cbv zeta. rewrite Z2Nat.id by assumption. reflexivity.
Qed.

End BoundaryFacts.

(** A read of one byte from the flat memory. *)
Lemma flat_read_one (m : flat.mem) (a : Z) :
  memory.read (P := flat.process) m a 1 false =
    match m a with
    | Some c => Ret [flat.value c]
    | None => Raise Error
    end.
Proof.
  unfold memory.read; cbn [read_memory flat.process].
  unfold flat.read_memory. change (Z.to_nat 1) with 1%nat.
  cbn [flat.read_run]. destruct (m a); reflexivity.
Qed.

(** The pages of [flat.pages base n], seen from the lowest and from the
    highest one. *)
Lemma flat_pages_up (base n : Z) :
  0 <= n -> spec.pages_up (P := flat.process) (flat.pages base n) base n.
Proof.
  intros Hn. split.
  - intros i Hi. exists [0]. rewrite flat_read_one. unfold flat.pages.
    destruct (Z.leb_spec base (base + i * memory.PAGE_SIZE));
      [|unfold memory.PAGE_SIZE in *; lia].
    destruct (Z.ltb_spec (base + i * memory.PAGE_SIZE)
                (base + n * memory.PAGE_SIZE));
      [|unfold memory.PAGE_SIZE in *; lia].
    reflexivity.
  - rewrite flat_read_one. unfold flat.pages.
    destruct (Z.ltb_spec (base + n * memory.PAGE_SIZE)
                (base + n * memory.PAGE_SIZE)); [lia|].
    rewrite andb_false_r. reflexivity.
Qed.

Lemma flat_pages_down (base n : Z) :
  0 < n ->
  spec.pages_down (P := flat.process) (flat.pages base n)
    (base + (n - 1) * memory.PAGE_SIZE) n.
Proof.
  intros Hn. split.
  - intros i Hi. exists [0]. rewrite flat_read_one. unfold flat.pages.
    destruct (Z.leb_spec base
                (base + (n - 1) * memory.PAGE_SIZE - i * memory.PAGE_SIZE));
      [|unfold memory.PAGE_SIZE in *; lia].
    destruct (Z.ltb_spec
                (base + (n - 1) * memory.PAGE_SIZE - i * memory.PAGE_SIZE)
                (base + n * memory.PAGE_SIZE));
      [|unfold memory.PAGE_SIZE in *; lia].
    reflexivity.
  - rewrite flat_read_one. unfold flat.pages.
    destruct (Z.leb_spec base
                (base + (n - 1) * memory.PAGE_SIZE - n * memory.PAGE_SIZE));
      [unfold memory.PAGE_SIZE in *; lia|].
    reflexivity.
Qed.

(** Witness of C7: three readable pages at 0x1000, 0x2000 and 0x3000,
    searched upwards from 0x1234 and downwards from 0x3234. *)
Lemma boundary_search_pages_witness :
  memory.find_upper_boundary (P := flat.process)
    (flat.pages 0x1000 3) (Arch.ptrmask 8) 0x1234 1024 = Ret 0x4000
  /\ memory.find_lower_boundary (P := flat.process)
       (flat.pages 0x1000 3) 0x3234 1024 = Ret 0x1000.
Proof.
  split.
  - apply (proj1 (boundary_search_pages (P := flat.process)
                    (flat.pages 0x1000 3) (Arch.ptrmask 8) 0x1234 1024 3
                    ltac:(lia) ltac:(lia))).
    exact (flat_pages_up 0x1000 3 ltac:(lia)).
  - apply (proj2 (boundary_search_pages (P := flat.process)
                    (flat.pages 0x1000 3) (Arch.ptrmask 8) 0x3234 1024 3
                    ltac:(lia) ltac:(lia))).
    exact (flat_pages_down 0x1000 3 ltac:(lia)).
Defined.

(** C7 as stated fails in both directions.  Upwards, three readable
    pages and a bound of two pages: the search returns the start plus
    two pages, not the pointer mask.  Downwards, three readable pages
    and the default bound: the search returns the lowest readable page,
    two pages below the start, not three. *)
Lemma boundary_search_counterexample :
  let inf := flat.pages 0x1000 3 in
  spec.pages_up (P := flat.process) inf (memory.page_align 0x1234) 3
  /\ memory.find_upper_boundary (P := flat.process)
       inf (Arch.ptrmask 8) 0x1234 2 = Ret 0x3000
  /\ 0x3000 <> Arch.ptrmask 8
  /\ spec.pages_down (P := flat.process) inf (memory.page_align 0x3234) 3
  /\ memory.find_lower_boundary (P := flat.process) inf 0x3234 1024
     = Ret 0x1000
  /\ 0x1000 <> memory.page_align 0x3234 - 3 * memory.PAGE_SIZE.
Proof.
  cbv zeta. split; [|split; [|split; [|split; [|split]]]].
  - apply (flat_pages_up 0x1000 3). lia.
  - reflexivity.
  - discriminate.
  - apply (flat_pages_down 0x1000 3). lia.
  - reflexivity.
  - discriminate.
Qed.

(** ** Selection in the GDB adapter *)

Section SelectionFacts.
Context {api : gdb.Api}.

Lemma select_back (g : gdb.engine) (selected inner : gdb.frame) :
  gdb.sel_frame g = Some selected ->
  gdb.select selected (gdb.select inner g) = g.
Proof. destruct g as [f t]. cbn. now intros ->. Qed.

Lemma switch_back (g : gdb.engine) (selected inner : gdb.thread) :
  gdb.sel_thread g = Some selected ->
  gdb.switch selected (gdb.switch inner g) = g.
Proof. destruct g as [f t]. cbn. now intros ->. Qed.

(** The success path of [evaluate_expression] does restore: when the
    evaluation returns, the engine is as it was. *)
Lemma evaluate_expression_success_restores (g g' : gdb.engine)
    (inner : gdb.frame) (expression : String.string) (v : gdb.value) :
  gdb.GDBFrame.evaluate_expression inner expression g = (g', Ret v) ->
  g' = g.
Proof.
  unfold gdb.GDBFrame.evaluate_expression, gdb.selected_frame.
  destruct (gdb.sel_frame g) as [selected|] eqn:Hs; [|discriminate].
  destruct (Nat.eqb selected inner); cbn [negb].
  - destruct (gdb.parse_and_eval _ _); intros [= <- _]. reflexivity.
  - destruct (gdb.parse_and_eval _ _); intros [= <- _].
    now apply select_back.
Qed.

(** The failure path does not: when the target frame differs from the
    selected one and the evaluation raises, the target stays selected. *)
Lemma evaluate_expression_error_keeps_target (g : gdb.engine)
    (selected inner : gdb.frame) (expression : String.string) (e : exn) :
  gdb.sel_frame g = Some selected -> selected <> inner ->
  gdb.parse_and_eval (Some inner) expression = Raise e ->
  gdb.GDBFrame.evaluate_expression inner expression g
    = (gdb.select inner g, Raise e).
Proof.
  intros Hs Hne He.
  unfold gdb.GDBFrame.evaluate_expression, gdb.selected_frame. rewrite Hs.
  apply Nat.eqb_neq in Hne. rewrite Hne. cbn [negb gdb.select gdb.sel_frame].
  now rewrite He.
Qed.

Lemma bottom_frame_success_restores (g g' : gdb.engine)
    (inner : gdb.thread) (f : gdb.frame) :
  gdb.GDBThread.bottom_frame inner g = (g', Ret f) -> g' = g.
Proof.
  unfold gdb.GDBThread.bottom_frame, gdb.GDBThread.differs.
  destruct (gdb.sel_thread g) as [selected|] eqn:Hs.
  - destruct (Nat.eqb selected inner); cbn [negb].
    + destruct (gdb.newest_frame _); intros [= <- _]. reflexivity.
    + destruct (gdb.newest_frame _); intros [= <- _].
      now apply switch_back.
  - destruct (gdb.newest_frame _); intros [=].
Qed.

End SelectionFacts.

(** C1 at the failing input: frame 0 and thread 1 are selected.
    Evaluating an expression that does not parse in frame 1 raises the
    engine's error and leaves frame 1 selected; asking thread 2, which
    has no stack, for its bottom frame raises and leaves thread 2
    selected. *)
Theorem selection_lost_on_engine_error :
  let g := {| gdb.sel_frame := Some 0%nat; gdb.sel_thread := Some 1%nat |} in
  gdb.GDBFrame.evaluate_expression (api := scripted.api) 1%nat "1 +" g
    = ({| gdb.sel_frame := Some 1%nat; gdb.sel_thread := Some 1%nat |},
       Raise Error)
  /\ gdb.GDBThread.bottom_frame (api := scripted.api) 2%nat g
     = ({| gdb.sel_frame := Some 0%nat; gdb.sel_thread := Some 2%nat |},
        Raise Error)
  /\ gdb.GDBFrame.evaluate_expression (api := scripted.api) 1%nat "1" g
     = (g, Ret 1).
Proof. cbv zeta. repeat split; reflexivity. Qed.

(** ** Type codes *)

(** Through the class the table answers for every code it maps, and an
    unmapped code is an assertion failure. *)
Lemma code_through_class_table (c : gdb.type_code) :
  gdb.GDBType.code_through_class c =
    match gdb.table_get c gdb.GDBType.CODE_MAPPING with
    | Some t => Ret t
    | None => Raise AssertionError
    end.
Proof. reflexivity. Qed.

(** The name [CODE_MAPPING] is bound in the class body only. *)
Lemma code_mapping_not_global :
  gdb.lookup "CODE_MAPPING" gdb.module_globals = None
  /\ gdb.lookup "CODE_MAPPING" gdb.GDBType.class_namespace
     = Some (gdb.Table gdb.GDBType.CODE_MAPPING).
Proof. split; reflexivity. Qed.

(** C4 at the failing input: the table maps [TYPE_CODE_INT] to [INT],
    but reading the property [code] of a type with that code raises
    [NameError], as it does for every code, mapped or not. *)
Theorem code_raises_name_error :
  gdb.table_get gdb.TYPE_CODE_INT gdb.GDBType.CODE_MAPPING = Some gdb.INT
  /\ gdb.GDBType.code gdb.TYPE_CODE_INT = Raise (NameError "CODE_MAPPING")
  /\ (forall c, gdb.GDBType.code c = Raise (NameError "CODE_MAPPING")).
Proof. repeat split; reflexivity. Qed.

(** ** Address formatting *)

Lemma length_append (a b : String.string) :
  String.length (a ++ b) = (String.length a + String.length b)%nat.
Proof.
  induction a as [|c a IH]; cbn.
  - reflexivity.
  - now rewrite IH.
Qed.

Lemma length_spaces (n : nat) : String.length (gdb.GDB.spaces n) = n.
Proof. induction n as [|n IH]; cbn; [reflexivity | now rewrite IH]. Qed.

Lemma all_spaces_spaces (n : nat) : spec.all_spaces (gdb.GDB.spaces n) = true.
Proof. induction n as [|n IH]; cbn; [reflexivity | exact IH]. Qed.

(** Masking with the pointer mask keeps the low [8 * ptrsize] bits. *)
Lemma land_ptrmask (ptrsize address : Z) :
  0 <= ptrsize ->
  Z.land address (Arch.ptrmask ptrsize) = address mod 2 ^ (8 * ptrsize).
Proof.
  intros Hp. unfold Arch.ptrmask.
  change (Z.shiftl 1 (8 * ptrsize) - 1) with (Z.ones (8 * ptrsize)).
  apply Z.land_ones. lia.
Qed.

Lemma to_hex_uint_nonnil (n : N) : N.to_hex_uint n <> Hexadecimal.Nil.
Proof.
  destruct n as [|p]; cbn.
  - discriminate.
  - apply HexadecimalPos.Unsigned.to_uint_nonnil.
Qed.

(** The digits printed for [n] read back as [n]. *)
Lemma hex_digits_denote (n : Z) :
  option_map N.of_hex_uint (NilZero.uint_of_string (gdb.GDB.hex_digits n))
  = Some (Z.to_N n).
Proof.
  unfold gdb.GDB.hex_digits.
  rewrite NilZero.usu by apply to_hex_uint_nonnil.
  cbn [option_map]. now rewrite HexadecimalN.Unsigned.of_to.
Qed.

(** C6, as amended: for a positive pointer size, [addrsz(address)] is
    the address masked to pointer width (its low [8 * ptrsize] bits),
    printed as [0x] followed by its lower-case hexadecimal digits and
    padded on the left with spaces, not zeros, to a field of
    [2 * ptrsize] characters that counts the prefix [0x]; a longer text
    is not cut. *)
Theorem addrsz_format (ptrsize address : Z) :
  0 < ptrsize ->
  let v := address mod 2 ^ (8 * ptrsize) in
  let digits := gdb.GDB.hex_digits v in
  exists pad,
    gdb.GDB.addrsz ptrsize address = (pad ++ "0x" ++ digits)%string
    /\ spec.all_spaces pad = true
    /\ String.length pad
       = (Z.to_nat (2 * ptrsize) - (2 + String.length digits))%nat
    /\ String.length (gdb.GDB.addrsz ptrsize address)
       = Nat.max (Z.to_nat (2 * ptrsize)) (2 + String.length digits)
    /\ option_map N.of_hex_uint (NilZero.uint_of_string digits)
       = Some (Z.to_N v)
    /\ 0 <= v < 2 ^ (8 * ptrsize).
Proof.
  intros Hp v digits.
  exists (gdb.GDB.spaces (Z.to_nat (2 * ptrsize) - (2 + String.length digits))).
  unfold gdb.GDB.addrsz, gdb.GDB.format_alt_hex.
  rewrite land_ptrmask by lia. fold v. fold digits.
  cbn [String.append String.length].
  repeat split.
  - apply all_spaces_spaces.
  - apply length_spaces.
  - rewrite length_append, length_spaces. cbn [String.length]. lia.
  - apply hex_digits_denote.
  - apply Z.mod_pos_bound. apply Z.pow_pos_nonneg; lia.
  - apply Z.mod_pos_bound. apply Z.pow_pos_nonneg; lia.
Qed.

(** Witness of C6: a 64-bit target and the address 0x1234. *)
Lemma addrsz_format_witness :
  exists pad,
    gdb.GDB.addrsz 8 0x1234 = (pad ++ "0x" ++ "1234")%string
    /\ spec.all_spaces pad = true
    /\ String.length pad = 10%nat.
Proof.
  destruct (addrsz_format 8 0x1234 ltac:(lia)) as (pad & H1 & H2 & H3 & _).
  exists pad. split; [exact H1|]. split; [exact H2|exact H3].
Defined.

(** C6 as stated fails: on a 64-bit target the address 0x1234 is
    printed in a field of sixteen characters that starts with ten
    spaces; the zero-padded forms, with or without the prefix, are
    different strings. *)
Lemma addrsz_zero_padded_counterexample :
  gdb.GDB.addrsz 8 0x1234 = "          0x1234"%string
  /\ spec.zero_padded_hex 8 0x1234 = "0000000000001234"%string
  /\ gdb.GDB.addrsz 8 0x1234 <> spec.zero_padded_hex 8 0x1234
  /\ gdb.GDB.addrsz 8 0x1234 <> ("0x" ++ spec.zero_padded_hex 8 0x1234)%string.
Proof. repeat split; try reflexivity; discriminate. Qed.

(** ** The Thumb bit *)

Lemma shiftr_land_one (x n : Z) :
  0 <= n -> Z.land (Z.shiftr x n) 1 = Z.b2z (Z.testbit x n).
Proof.
  intros Hn. change 1 with (Z.ones 1) at 1.
  rewrite Z.land_ones by lia. rewrite Z.shiftr_div_pow2 by lia.
  rewrite Z.testbit_spec' by lia. reflexivity.
Qed.

(** C9: on the architecture ["arm"] [read_thumb_bit] is bit 5 of [cpsr]
    when the facade can read that register and [None] when it cannot; on
    ["armcm"] it is bit 24 of [xpsr] in the same way; on every other
    architecture, 64-bit ARM among them, it is [None] whatever the
    registers hold. *)
Theorem read_thumb_bit_by_architecture {D : Debugger} (e : dbg) :
  (arch.current e = "arm"%string ->
   arch.read_thumb_bit e =
     option_map (fun cpsr => Z.b2z (Z.testbit cpsr 5))
       (regs.__getattr__ e "cpsr"))
  /\ (arch.current e = "armcm"%string ->
      arch.read_thumb_bit e =
        option_map (fun xpsr => Z.b2z (Z.testbit xpsr 24))
          (regs.__getattr__ e "xpsr"))
  /\ (arch.current e <> "arm"%string -> arch.current e <> "armcm"%string ->
      arch.read_thumb_bit e = None)
  /\ (arch.current e = "aarch64"%string -> arch.read_thumb_bit e = None).
Proof.
  unfold arch.read_thumb_bit. repeat split.
  - intros ->. cbn [String.eqb Ascii.eqb Bool.eqb].
    destruct (regs.__getattr__ e "cpsr"); cbn [option_map]; [|reflexivity].
    now rewrite shiftr_land_one by lia.
  - intros ->. cbn [String.eqb Ascii.eqb Bool.eqb].
    destruct (regs.__getattr__ e "xpsr"); cbn [option_map]; [|reflexivity].
    now rewrite shiftr_land_one by lia.
  - intros H1 H2.
    apply String.eqb_neq in H1. apply String.eqb_neq in H2.
    now rewrite H1, H2.
  - intros ->. reflexivity.
Qed.

(** Witness of C9: [cpsr] with bit 5 set, [cpsr] missing, [xPSR] with
    bit 24 set, and a 64-bit ARM target whose [cpsr] has bit 5 set. *)
Lemma read_thumb_bit_by_architecture_witness :
  arch.read_thumb_bit (D := toy.debugger)
    (toy.machine "arm" 4 [("cpsr"%string, (0x60000030, 4))]) = Some 1
  /\ arch.read_thumb_bit (D := toy.debugger) (toy.machine "arm" 4 []) = None
  /\ arch.read_thumb_bit (D := toy.debugger)
       (toy.machine "armcm" 4 [("xPSR"%string, (0x01000000, 4))]) = Some 1
  /\ arch.read_thumb_bit (D := toy.debugger)
       (toy.machine "x86-64" 8 [("cpsr"%string, (0x20, 4))]) = None
  /\ arch.read_thumb_bit (D := toy.debugger)
       (toy.machine "aarch64" 8 [("cpsr"%string, (0x20, 4))]) = None.
Proof.
  split; [|split; [|split; [|split]]].
  - exact (proj1 (read_thumb_bit_by_architecture (D := toy.debugger)
             (toy.machine "arm" 4 [("cpsr"%string, (0x60000030, 4))]))
             eq_refl).
  - exact (proj1 (read_thumb_bit_by_architecture (D := toy.debugger)
             (toy.machine "arm" 4 [])) eq_refl).
  - exact (proj1 (proj2 (read_thumb_bit_by_architecture (D := toy.debugger)
             (toy.machine "armcm" 4 [("xPSR"%string, (0x01000000, 4))])))
             eq_refl).
  - apply (proj1 (proj2 (proj2 (read_thumb_bit_by_architecture
             (D := toy.debugger)
             (toy.machine "x86-64" 8 [("cpsr"%string, (0x20, 4))])))));
      discriminate.
  - exact (proj2 (proj2 (proj2 (read_thumb_bit_by_architecture
             (D := toy.debugger)
             (toy.machine "aarch64" 8 [("cpsr"%string, (0x20, 4))]))))
             eq_refl).
Defined.

(** ** Attribute assignment on the facade *)

(** C10: assigning an attribute other than [last] and [previous] stores
    no Python attribute: the facade object is as before.  With a frame
    selected and a value that [int] accepts, the assignment is the
    register write [reg_write(attr, int(val))] on the selected frame,
    with its effect on the debugger and its outcome. *)
Theorem setattr_writes_register {D : Debugger} (e : dbg) (m : regs.module)
    (attr : String.string) (val : regs.pyval) :
  attr <> "last"%string -> attr <> "previous"%string ->
  snd (fst (regs.__setattr__ e m attr val)) = m
  /\ (forall frame z,
        selected_frame e = Some frame -> regs.int val = Ret z ->
        regs.__setattr__ e m attr val =
          (fst (reg_write e frame attr z), m,
           snd (reg_write e frame attr z))).
Proof.
  intros Hl Hp. unfold regs.__setattr__.
  apply String.eqb_neq in Hl. apply String.eqb_neq in Hp.
  rewrite Hl, Hp. split.
  - destruct (selected_frame e) as [frame|]; [|reflexivity].
    destruct (regs.int val) as [z|ex]; [|reflexivity].
    now destruct (reg_write e frame attr z).
  - intros frame z -> ->. now destruct (reg_write e frame attr z).
Qed.

(** Witness of C10: [regs.eax = 5] on the x86 machine changes the
    register of the debuggee and nothing of the facade. *)
Lemma setattr_writes_register_witness :
  regs.__setattr__ (D := toy.debugger) (toy.x86 1 2) regs.initial
    "eax" (regs.VInt 5)
  = (toy.x86 5 2, regs.initial, Ret tt).
Proof.
  exact (proj2 (setattr_writes_register (D := toy.debugger)
                  (toy.x86 1 2) regs.initial "eax" (regs.VInt 5)
                  ltac:(discriminate) ltac:(discriminate))
           tt 5 eq_refl eq_refl).
Defined.

(** ** Change tracking *)

Section ChangeFacts.
Context {D : Debugger}.

Lemma dict_set_readings (e : dbg) (k : String.string)
    (ks : list String.string) :
  regs.dict_set k (regs.__getitem__ e k) (spec.readings e ks)
  = spec.readings e (spec.add_key ks k).
Proof.
  unfold spec.add_key.
  induction ks as [|k' ks IH]; cbn [spec.readings map regs.dict_set existsb].
  - reflexivity.
  - rewrite (String.eqb_sym k k').
    destruct (String.eqb_spec k' k) as [->|Hne]; cbn [orb].
    + reflexivity.
    + fold (spec.readings e ks). rewrite IH.
      destruct (existsb (String.eqb k) ks); reflexivity.
Qed.

Lemma fold_dict_set_readings (e : dbg) (l ks : list String.string) :
  fold_left (fun d k => regs.dict_set k (regs.__getitem__ e k) d) l
    (spec.readings e ks)
  = spec.readings e (fold_left spec.add_key l ks).
Proof.
  revert ks. induction l as [|k l IH]; intros ks; cbn [fold_left].
  - reflexivity.
  - rewrite dict_set_readings. apply IH.
Qed.

(** The dictionary comprehension of [update_last]: one entry per name,
    in order of first occurrence, holding the reading of that name. *)
Lemma snapshot_readings (e : dbg) (keys : list String.string) :
  regs.snapshot e keys = spec.readings e (spec.keys_of keys).
Proof. exact (fold_dict_set_readings e keys []). Qed.

Lemma dict_get_readings (e : dbg) (ks : list String.string)
    (r : String.string) :
  In r ks -> regs.dict_get r (spec.readings e ks) = Some (regs.__getitem__ e r).
Proof.
  induction ks as [|k ks IH]; intros Hin; cbn [spec.readings map regs.dict_get].
  - destruct Hin.
  - destruct (String.eqb_spec k r) as [->|Hne]; [reflexivity|].
    destruct Hin as [->|Hin]; [congruence|]. now apply IH.
Qed.

(** The loop of [changed] over a dictionary of readings taken in [e0]. *)
Lemma changed_loop_readings (e e0 : dbg) (ks : list String.string) :
  map fst
    (filter (fun kv => negb (regs.opt_eqb (regs.__getitem__ e (fst kv)) (snd kv)))
       (spec.readings e0 ks))
  = filter (fun r => negb (regs.opt_eqb (regs.__getitem__ e r)
                             (regs.__getitem__ e0 r))) ks.
Proof.
  induction ks as [|k ks IH]; cbn [spec.readings map filter fst snd].
  - reflexivity.
  - fold (spec.readings e0 ks).
    destruct (negb (regs.opt_eqb (regs.__getitem__ e k) (regs.__getitem__ e0 k)));
      cbn [map fst]; now rewrite IH.
Qed.

Lemma opt_eqb_refl (a : option Z) : regs.opt_eqb a a = true.
Proof. destruct a; cbn; [apply Z.eqb_refl | reflexivity]. Qed.

Lemma filter_nothing {A : Type} (f : A -> bool) (l : list A) :
  (forall a, In a l -> f a = false) -> filter f l = [].
Proof.
  induction l as [|a l IH]; intros H; cbn.
  - reflexivity.
  - rewrite (H a) by now left. apply IH. intros b Hb. apply H. now right.
Qed.

(** What one event does to the facade. *)
Lemma update_last_shifts (rs : RegisterSet.t) (e : dbg) (m : regs.module) :
  reg_sets (arch_name e) = Some rs ->
  regs.update_last e m
  = ({| regs.previous := regs.last m;
        regs.last :=
          regs.VDict (spec.readings e (spec.keys_of (RegisterSet.common rs))) |},
     Ret tt).
Proof.
  intros Hrs. unfold regs.update_last, regs.common, regs.current.
  rewrite Hrs. cbn [regs.previous]. now rewrite snapshot_readings.
Qed.

(** Both generations of a reachable facade are empty or the readings of
    the common registers in some state of the debugger. *)
Lemma reachable_generations (rs : RegisterSet.t) (m : regs.module) :
  spec.reachable rs m ->
  spec.generation rs (regs.previous m) /\ spec.generation rs (regs.last m).
Proof.
  induction 1 as [|e m Hm [IHp IHl] Hrs].
  - split; left; reflexivity.
  - rewrite (update_last_shifts rs e m Hrs). cbn [fst regs.previous regs.last].
    split; [exact IHl|]. right. now exists e.
Qed.

(** C5: an event ([CONTINUE] or [STOP]) replaces [previous] by the
    former [last] and [last] by the readings of the architecture's
    common registers.  Hence, in every state that events lead to,
    [changed] lists the common registers whose reading now differs from
    their value in [previous]; and after two consecutive events between
    which no register reading changed, [changed] is empty. *)
Theorem changed_tracks_common_registers (rs : RegisterSet.t) :
  (forall e m,
     reg_sets (arch_name e) = Some rs ->
     regs.update_last e m
     = ({| regs.previous := regs.last m;
           regs.last :=
             regs.VDict
               (map (fun k => (k, regs.__getitem__ e k))
                  (spec.keys_of (RegisterSet.common rs))) |},
        Ret tt))
  /\ (forall e m,
        spec.reachable rs m ->
        exists d,
          regs.previous m = regs.VDict d
          /\ regs.changed e m
             = Ret (filter (spec.differs e d)
                      (spec.keys_of (RegisterSet.common rs))))
  /\ (forall e1 e2 m,
        reg_sets (arch_name e1) = Some rs ->
        reg_sets (arch_name e2) = Some rs ->
        spec.same_registers e1 e2 ->
        regs.changed e2
          (fst (regs.update_last e2 (fst (regs.update_last e1 m))))
        = Ret []).
Proof.
  split; [|split].
  - intros e m Hrs. exact (update_last_shifts rs e m Hrs).
  - intros e m Hm.
    destruct (reachable_generations rs m Hm) as [[Hp|[e0 Hp]] _].
    + exists []. split; [exact Hp|]. unfold regs.changed. rewrite Hp.
      cbn [filter map]. f_equal. symmetry. now apply filter_nothing.
    + exists (spec.readings e0 (spec.keys_of (RegisterSet.common rs))).
      split; [exact Hp|]. unfold regs.changed. rewrite Hp.
      rewrite changed_loop_readings. f_equal.
      apply filter_ext_in. intros r Hr. unfold spec.differs.
      now rewrite (dict_get_readings e0 _ r Hr).
  - intros e1 e2 m H1 H2 Hsame.
    rewrite (update_last_shifts rs e1 m H1). cbn [fst].
    rewrite (update_last_shifts rs e2 _ H2). cbn [fst regs.last].
    unfold regs.changed. cbn [regs.previous].
    rewrite changed_loop_readings. f_equal.
    apply filter_nothing. intros r _.
    rewrite (Hsame r). now rewrite opt_eqb_refl.
Qed.

End ChangeFacts.

(** Witness of C5: two stops of the x86 machine with [eax = 1] and
    [ebx = 2].  With the registers as they were, nothing has changed;
    once [ebx] holds 3, [changed] lists [ebx]. *)
Lemma changed_tracks_common_registers_witness :
  let stop := fun m => fst (regs.update_last (D := toy.debugger) (toy.x86 1 2) m) in
  regs.changed (D := toy.debugger) (toy.x86 1 3) (stop (stop regs.initial))
    = Ret ["ebx"%string]
  /\ regs.changed (D := toy.debugger) (toy.x86 1 2) (stop (stop regs.initial))
     = Ret []
  /\ regs.previous (stop (stop regs.initial))
     = regs.last (stop regs.initial).
Proof.
  cbv zeta. split; [|split].
  - destruct (proj1 (proj2 (changed_tracks_common_registers
                              (D := toy.debugger) toy.i386))
                (toy.x86 1 3)
                (fst (regs.update_last (D := toy.debugger) (toy.x86 1 2)
                   (fst (regs.update_last (D := toy.debugger) (toy.x86 1 2)
                      regs.initial))))
                (spec.reach_event (D := toy.debugger) toy.i386 (toy.x86 1 2) _
                   (spec.reach_event (D := toy.debugger) toy.i386 (toy.x86 1 2) _
                      (spec.reach_initial (D := toy.debugger) toy.i386) eq_refl) eq_refl))
      as (d & Hd & Hc).
    rewrite Hc. injection Hd as <-. reflexivity.
  - exact (proj2 (proj2 (changed_tracks_common_registers
                           (D := toy.debugger) toy.i386))
             (toy.x86 1 2) (toy.x86 1 2) regs.initial eq_refl eq_refl
             (fun r => eq_refl)).
  - rewrite (proj1 (changed_tracks_common_registers
                      (D := toy.debugger) toy.i386)
               (toy.x86 1 2)
               (fst (regs.update_last (D := toy.debugger) (toy.x86 1 2)
                  regs.initial)) eq_refl).
    reflexivity.
Defined.

(** ** Register names in expressions *)

Section ScanFacts.

Lemma chars_eqb_eq (a b : list ascii) : spec.chars_eqb a b = true <-> a = b.
Proof.
  revert b. induction a as [|x a IH]; intros [|y b]; cbn;
    try (split; [discriminate|discriminate]); [tauto|].
  rewrite andb_true_iff, Ascii.eqb_eq, IH. split.
  - intros [-> ->]. reflexivity.
  - intros [= -> ->]. split; reflexivity.
Qed.

Lemma chars_eqb_neq (a b : list ascii) :
  spec.chars_eqb a b = false <-> a <> b.
Proof.
  rewrite <- chars_eqb_eq. destruct (spec.chars_eqb a b); split;
    congruence.
Qed.

Lemma dollar_not_word (c : ascii) :
  Ascii.eqb c "$" = true -> re.is_word c = false.
Proof. intros H. apply Ascii.eqb_eq in H. subst. reflexivity. Qed.

Lemma word_not_dollar (p : option ascii) :
  re.is_word_opt p = true -> spec.is_dollar p = false.
Proof.
  destruct p as [c|]; cbn; [|reflexivity]. intros Hw.
  destruct (Ascii.eqb c "$") eqn:E; [|reflexivity].
  apply dollar_not_word in E. congruence.
Qed.

Lemma last_char_cons (prev : option ascii) (c : ascii) (u : list ascii) :
  re.last_char prev (c :: u) = re.last_char (Some c) u.
Proof.
  unfold re.last_char. cbn [rev].
  destruct (rev u) as [|h t]; reflexivity.
Qed.

Lemma last_char_word (prev : option ascii) (u : list ascii) :
  u <> [] -> forallb re.is_word u = true ->
  re.is_word_opt (re.last_char prev u) = true.
Proof.
  revert prev. induction u as [|c u IH]; intros prev Hne Hw; [congruence|].
  cbn [forallb] in Hw. apply andb_true_iff in Hw as [Hc Hu].
  rewrite last_char_cons. destruct u as [|c' u'].
  - exact Hc.
  - apply IH; [discriminate|exact Hu].
Qed.

(** A word is its own first word when a non-word character follows. *)
Lemma take_word_split (s : list ascii) :
  exists tl, s = spec.take_word s ++ tl
             /\ re.is_word_opt (hd_error tl) = false.
Proof.
  induction s as [|c s [tl [Hs Htl]]]; cbn [spec.take_word].
  - exists []. split; reflexivity.
  - destruct (re.is_word c) eqn:Hc.
    + exists tl. split; [|exact Htl]. cbn. now rewrite <- Hs.
    + exists (c :: s). split; [reflexivity|exact Hc].
Qed.

Lemma take_word_all_word (s : list ascii) :
  forallb re.is_word (spec.take_word s) = true.
Proof.
  induction s as [|c s IH]; cbn [spec.take_word]; [reflexivity|].
  destruct (re.is_word c) eqn:Hc; [|reflexivity].
  cbn [forallb]. now rewrite Hc, IH.
Qed.

(** [strip_prefix] followed by the closing [\b] succeeds exactly on the
    strings whose first word is the literal. *)
Lemma strip_prefix_take_word (lit : list ascii) :
  forallb re.is_word lit = true ->
  forall s,
    match re.strip_prefix lit s with
    | Some rest => negb (re.is_word_opt (hd_error rest))
    | None => false
    end = spec.chars_eqb (spec.take_word s) lit.
Proof.
  induction lit as [|a lit IH]; intros Hw s.
  - cbn [re.strip_prefix]. destruct s as [|c s]; cbn; [reflexivity|].
    destruct (re.is_word c); reflexivity.
  - cbn [forallb] in Hw. apply andb_true_iff in Hw as [Ha Hlit].
    destruct s as [|c s]; cbn [re.strip_prefix spec.take_word];
      [reflexivity|].
    destruct (Ascii.eqb_spec a c) as [<-|Hne].
    + rewrite Ha. cbn [spec.chars_eqb]. rewrite Ascii.eqb_refl.
      cbn [andb]. now apply IH.
    + destruct (re.is_word c); cbn [spec.chars_eqb]; [|reflexivity].
      destruct (Ascii.eqb_spec c a); [congruence|reflexivity].
Qed.

(** [\bLIT\b] for a literal made of word characters: it matches where a
    word starts that is the literal. *)
Lemma match_lit_word (lit : list ascii) (prev : option ascii)
    (s : list ascii) :
  lit <> [] -> forallb re.is_word lit = true ->
  re.match_lit lit prev s =
    if negb (re.is_word_opt prev) && spec.chars_eqb (spec.take_word s) lit
    then Some (List.length lit) else None.
Proof.
  intros Hne Hw. unfold re.match_lit, re.word_boundary.
  rewrite (last_char_word prev lit Hne Hw). cbn [xorb].
  pose proof (strip_prefix_take_word lit Hw s) as Hs.
  destruct lit as [|a lit]; [congruence|].
  cbn [forallb] in Hw. apply andb_true_iff in Hw as [Ha _].
  destruct (re.is_word_opt prev) eqn:Hp; cbn [negb andb xorb].
  - (* after a word character: a boundary needs a non-word head, which
       the literal does not start with *)
    destruct s as [|c s]; cbn [hd_error re.is_word_opt negb re.strip_prefix];
      [reflexivity|].
    destruct (re.is_word c) eqn:Hc; cbn [negb]; [reflexivity|].
    destruct (Ascii.eqb_spec a c) as [<-|_]; [congruence|reflexivity].
  - destruct s as [|c s]; cbn [hd_error re.is_word_opt xorb];
      [reflexivity|].
    destruct (re.is_word c) eqn:Hc.
    + rewrite <- Hs.
      destruct (re.strip_prefix (a :: lit) (c :: s)) as [rest|];
        [|reflexivity].
      destruct (re.is_word_opt (hd_error rest)); reflexivity.
    + cbn [spec.take_word]. rewrite Hc. reflexivity.
Qed.

(** [\$?\bLIT\b] at a [$]: only the match that takes the [$] can
    succeed. *)
Lemma match_at_dollar (lit : list ascii) (prev : option ascii)
    (c : ascii) (rest : list ascii) :
  lit <> [] -> forallb re.is_word lit = true ->
  Ascii.eqb c "$" = true ->
  re.match_at lit prev (c :: rest) =
    if spec.chars_eqb (spec.take_word rest) lit
    then Some (S (List.length lit)) else None.
Proof.
  intros Hne Hw Hc. unfold re.match_at. rewrite Hc.
  rewrite !(match_lit_word lit _ _ Hne Hw).
  cbn [re.is_word_opt]. rewrite (dollar_not_word c Hc). cbn [negb andb].
  destruct (spec.chars_eqb (spec.take_word rest) lit); [reflexivity|].
  cbn [spec.take_word]. rewrite (dollar_not_word c Hc).
  destruct lit; [congruence|]. cbn [spec.chars_eqb].
  now rewrite andb_false_r.
Qed.

Lemma match_at_other (lit : list ascii) (prev : option ascii)
    (c : ascii) (rest : list ascii) :
  lit <> [] -> forallb re.is_word lit = true ->
  Ascii.eqb c "$" = false ->
  re.match_at lit prev (c :: rest) =
    if negb (re.is_word_opt prev)
       && spec.chars_eqb (spec.take_word (c :: rest)) lit
    then Some (List.length lit) else None.
Proof.
  intros Hne Hw Hc. unfold re.match_at. rewrite Hc.
  apply (match_lit_word lit prev (c :: rest) Hne Hw).
Qed.

(** Passing over the characters of a match. *)
Lemma sub_scan_skip (lit repl : list ascii) (u rest : list ascii) :
  forall prev,
    re.sub_scan lit repl prev (List.length u) (u ++ rest)
    = re.sub_scan lit repl (re.last_char prev u) O rest.
Proof.
  induction u as [|c u IH]; intros prev.
  - reflexivity.
  - cbn [List.length app re.sub_scan]. rewrite IH.
    now rewrite last_char_cons.
Qed.

(** Inside a word, and after a [$], the specification copies. *)
Lemma prefix_registers_copy (names : list (list ascii))
    (u rest : list ascii) :
  forallb re.is_word u = true ->
  forall prev,
    re.is_word_opt prev || spec.is_dollar prev = true ->
    spec.prefix_registers names prev (u ++ rest)
    = u ++ spec.prefix_registers names (re.last_char prev u) rest.
Proof.
  induction u as [|c u IH]; intros Hw prev Hp.
  - reflexivity.
  - cbn [forallb] in Hw. apply andb_true_iff in Hw as [Hc Hu].
    cbn [app spec.prefix_registers].
    replace (re.is_word c && negb (re.is_word_opt prev)
             && negb (spec.is_dollar prev)
             && spec.mem (c :: spec.take_word (u ++ rest)) names)
      with false
      by (destruct (re.is_word_opt prev), (spec.is_dollar prev);
          try discriminate; now rewrite ?andb_false_r).
    rewrite (IH Hu (Some c)) by (cbn; now rewrite Hc).
    now rewrite last_char_cons.
Qed.

End ScanFacts.

Section PassFacts.

Lemma take_word_cons_word (c : ascii) (rest : list ascii) :
  re.is_word c = true ->
  spec.take_word (c :: rest) = c :: spec.take_word rest.
Proof. intros H. cbn. now rewrite H. Qed.

Lemma mem_single (w lit : list ascii) :
  spec.mem w [lit] = spec.chars_eqb w lit.
Proof. unfold spec.mem. cbn. now rewrite orb_false_r. Qed.

(** One pass of [re.sub] with the pattern of a register name is the
    specification for that one name.  A scan never stands just after a
    [$] in front of the name: the match at the [$] takes both. *)
Lemma sub_scan_prefix_registers (lit : list ascii) :
  lit <> [] -> forallb re.is_word lit = true ->
  forall (n : nat) (s : list ascii) (prev : option ascii),
    (List.length s <= n)%nat ->
    (spec.is_dollar prev = true ->
     spec.chars_eqb (spec.take_word s) lit = false) ->
    re.sub_scan lit ("$"%char :: lit) prev O s
    = spec.prefix_registers [lit] prev s.
Proof.
  intros Hne Hw. induction n as [|n IH]; intros s prev Hlen Hinv.
  - destruct s; [reflexivity | cbn in Hlen; lia].
  - destruct s as [|c rest]; [reflexivity|].
    cbn [List.length] in Hlen.
    cbn [re.sub_scan spec.prefix_registers]. rewrite mem_single.
    destruct (Ascii.eqb c "$") eqn:Hc.
    + (* at a [$] *)
      rewrite (match_at_dollar lit prev c rest Hne Hw Hc).
      rewrite (dollar_not_word c Hc). cbn [andb].
      destruct (spec.chars_eqb (spec.take_word rest) lit) eqn:Hm.
      * apply chars_eqb_eq in Hm.
        destruct (take_word_split rest) as [tl [Hrest Htl]].
        rewrite Hm in Hrest. rewrite Hrest.
        rewrite sub_scan_skip.
        rewrite (prefix_registers_copy [lit] lit tl Hw (Some c))
          by (cbn; rewrite Hc; apply orb_true_r).
        apply Ascii.eqb_eq in Hc. subst c.
        cbn [app]. f_equal. f_equal. apply IH.
        -- rewrite Hrest in Hlen. rewrite length_app in Hlen. lia.
        -- intros Hd.
           rewrite (word_not_dollar _ (last_char_word _ lit Hne Hw)) in Hd.
           discriminate.
      * f_equal. apply IH; [lia|]. intros _. exact Hm.
    + (* at any other character *)
      rewrite (match_at_other lit prev c rest Hne Hw Hc).
      destruct (negb (re.is_word_opt prev)
                && spec.chars_eqb (spec.take_word (c :: rest)) lit) eqn:Hm.
      * apply andb_true_iff in Hm as [Hp Hm].
        assert (Hd : spec.is_dollar prev = false).
        { destruct (spec.is_dollar prev) eqn:Hd; [|reflexivity].
          rewrite (Hinv eq_refl) in Hm. discriminate. }
        apply chars_eqb_eq in Hm.
        destruct lit as [|a lit']; [congruence|].
        assert (Hcw : re.is_word c = true).
        { cbn [spec.take_word] in Hm.
          destruct (re.is_word c); [reflexivity|discriminate]. }
        rewrite (take_word_cons_word c rest Hcw) in Hm.
        injection Hm as -> Hm.
        pose proof Hw as Hw'. cbn [forallb] in Hw'.
        apply andb_true_iff in Hw' as [_ Hw'].
        cbn [List.length].
        destruct (take_word_split rest) as [tl [Hrest Htl]].
        rewrite Hm in Hrest.
        rewrite Hcw, Hp, Hd. cbn [negb andb].
        assert (He : spec.chars_eqb (a :: spec.take_word rest) (a :: lit')
                     = true) by (apply chars_eqb_eq; now rewrite Hm).
        rewrite He. rewrite Hrest.
        rewrite sub_scan_skip.
        rewrite (prefix_registers_copy [a :: lit'] lit' tl Hw' (Some a))
          by (cbn; now rewrite Hcw).
        cbn [app]. f_equal. f_equal. f_equal. apply IH.
        -- rewrite Hrest in Hlen. rewrite length_app in Hlen. lia.
        -- intros Hd'. destruct lit' as [|b lit''].
           ++ cbn in Hd'. apply dollar_not_word in Hd'. congruence.
           ++ rewrite (word_not_dollar _
                         (last_char_word (Some a) (b :: lit'')
                            ltac:(discriminate) Hw')) in Hd'.
              discriminate.
      * assert (Hs : re.is_word c && negb (re.is_word_opt prev)
                     && negb (spec.is_dollar prev)
                     && spec.chars_eqb (c :: spec.take_word rest) lit
                     = false).
        { destruct (re.is_word c) eqn:Hcw; [|reflexivity].
          rewrite (take_word_cons_word c rest Hcw) in Hm.
          destruct (negb (re.is_word_opt prev)); cbn [andb] in *;
            [|reflexivity].
          rewrite Hm. apply andb_false_r. }
        rewrite Hs. f_equal. apply IH; [lia|].
        cbn [spec.is_dollar]. rewrite Hc. discriminate.
Qed.

End PassFacts.

Section ComposeFacts.

Lemma is_word_dollar : re.is_word "$" = false.
Proof. reflexivity. Qed.

Lemma mem_cons (w lit : list ascii) (names : list (list ascii)) :
  spec.mem w (lit :: names) = spec.chars_eqb w lit || spec.mem w names.
Proof. reflexivity. Qed.

Lemma mem_In (w : list ascii) (names : list (list ascii)) :
  spec.mem w names = true <-> In w names.
Proof.
  unfold spec.mem. rewrite existsb_exists. split.
  - intros [x [Hx He]]. apply chars_eqb_eq in He. now subst.
  - intros H. exists w. split; [exact H|]. now apply chars_eqb_eq.
Qed.

(** With no name to look for, nothing is rewritten. *)
Lemma prefix_registers_nil (s : list ascii) :
  forall prev, spec.prefix_registers [] prev s = s.
Proof.
  induction s as [|c s IH]; intros prev; [reflexivity|].
  cbn [spec.prefix_registers spec.mem existsb].
  rewrite andb_false_r. now rewrite IH.
Qed.

(** Only the set of names matters. *)
Lemma prefix_registers_ext (names1 names2 : list (list ascii)) :
  (forall w, In w names1 <-> In w names2) ->
  forall s prev,
    spec.prefix_registers names1 prev s = spec.prefix_registers names2 prev s.
Proof.
  intros Hin. induction s as [|c s IH]; intros prev; [reflexivity|].
  cbn [spec.prefix_registers].
  assert (Hm : spec.mem (c :: spec.take_word s) names1
               = spec.mem (c :: spec.take_word s) names2).
  { apply eq_true_iff_eq. rewrite !mem_In. apply Hin. }
  rewrite Hm, !IH. reflexivity.
Qed.

(** Inside a word the specification inserts nothing, so the word that
    starts a text is the same before and after. *)
Lemma take_word_prefix_registers (names : list (list ascii))
    (s : list ascii) :
  forall prev,
    re.is_word_opt prev = true ->
    spec.take_word (spec.prefix_registers names prev s) = spec.take_word s.
Proof.
  induction s as [|c s IH]; intros prev Hp; [reflexivity|].
  cbn [spec.prefix_registers]. rewrite Hp. cbn [negb].
  rewrite andb_false_r. cbn [andb spec.take_word].
  destruct (re.is_word c) eqn:Hc; [|reflexivity].
  f_equal. apply IH. exact Hc.
Qed.

(** A pass for one more name after the passes for [names] is the
    specification for the larger set. *)
Lemma prefix_registers_compose (lit : list ascii)
    (names : list (list ascii)) (s : list ascii) :
  forall prev,
    spec.prefix_registers [lit] prev (spec.prefix_registers names prev s)
    = spec.prefix_registers (lit :: names) prev s.
Proof.
  induction s as [|c s IH]; intros prev; [reflexivity|].
  cbn [spec.prefix_registers]. rewrite mem_cons.
  destruct (re.is_word c) eqn:Hc; cbn [andb].
  - destruct (re.is_word_opt prev) eqn:Hp; cbn [negb andb].
    + cbn [spec.prefix_registers]. rewrite Hc, Hp. cbn [negb andb].
      now rewrite IH.
    + destruct (spec.is_dollar prev) eqn:Hd; cbn [negb andb].
      * cbn [spec.prefix_registers]. rewrite Hc, Hp, Hd. cbn [negb andb].
        now rewrite IH.
      * destruct (spec.mem (c :: spec.take_word s) names) eqn:Hm.
        -- rewrite orb_true_r.
           cbn [spec.prefix_registers re.is_word_opt spec.is_dollar].
           rewrite is_word_dollar. cbn [andb].
           rewrite Ascii.eqb_refl. cbn [negb]. rewrite !andb_false_r.
           cbn [andb]. now rewrite IH.
        -- rewrite orb_false_r.
           cbn [spec.prefix_registers]. rewrite Hc, Hp, Hd. cbn [negb andb].
           rewrite mem_single.
           rewrite (take_word_prefix_registers names s (Some c) Hc).
           destruct (spec.chars_eqb (c :: spec.take_word s) lit);
             now rewrite IH.
  - cbn [spec.prefix_registers]. rewrite Hc. cbn [andb]. now rewrite IH.
Qed.

Lemma passes_prefix_registers (order : list (list ascii)) :
  (forall lit, In lit order ->
     lit <> [] /\ forallb re.is_word lit = true) ->
  forall (acc : list (list ascii)) (s : list ascii),
    re.passes order (spec.prefix_registers acc None s)
    = spec.prefix_registers (rev order ++ acc) None s.
Proof.
  unfold re.passes. induction order as [|lit order IH]; intros Hok acc s.
  - reflexivity.
  - cbn [fold_left rev].
    destruct (Hok lit (or_introl eq_refl)) as [Hne Hw].
    rewrite (sub_scan_prefix_registers lit Hne Hw _ _ None (le_n _))
      by discriminate.
    rewrite prefix_registers_compose.
    rewrite IH by (intros l Hl; apply Hok; now right).
    now rewrite <- app_assoc.
Qed.

Lemma fold_sub_register (order : list String.string)
    (expression : String.string) :
  fold_left (fun expression regname => re.sub_register regname expression)
    order expression
  = string_of_list_ascii
      (re.passes (map list_ascii_of_string order)
         (list_ascii_of_string expression)).
Proof.
  unfold re.passes. revert expression.
  induction order as [|r order IH]; intros expression; cbn [fold_left map].
  - now rewrite string_of_list_ascii_of_string.
  - rewrite IH. unfold re.sub_register at 1.
    now rewrite list_ascii_of_string_of_list_ascii.
Qed.

Lemma identifier_chars (name : String.string) :
  spec.identifier name = true ->
  list_ascii_of_string name <> []
  /\ forallb re.is_word (list_ascii_of_string name) = true.
Proof.
  unfold spec.identifier.
  destruct (list_ascii_of_string name) as [|c cs]; [discriminate|].
  intros H. split; [discriminate|exact H].
Qed.

End ComposeFacts.

(** C8: [fix(expression)] puts the engine's [$] in front of every
    maximal word of the expression (a run of word characters with no
    word character on either side) that is a name of [all] or one of
    [sp] and [pc], unless the [$] is there already, and changes nothing
    else: a name inside a longer identifier stays as it is.  The order
    in which the set of names is iterated does not matter.  The names
    are identifiers, as register names are. *)
Theorem fix_prefixes_register_names {D : Debugger}
    (set_order : list String.string -> list String.string)
    (e : dbg) (rs : RegisterSet.t) (expression : String.string) :
  reg_sets (arch_name e) = Some rs ->
  (forall l x, In x (set_order l) <-> In x l) ->
  (forall name, In name (regs.all_of rs) -> spec.identifier name = true) ->
  regs.fix_ set_order e expression
  = Ret (spec.rewrite_registers
           (regs.all_of rs ++ ["sp"; "pc"]%string) expression).
Proof.
  intros Hrs Hset Hid.
  unfold regs.fix_, regs.all, regs.current. rewrite Hrs. f_equal.
  rewrite fold_sub_register. unfold spec.rewrite_registers. f_equal.
  set (names := regs.all_of rs ++ ["sp"; "pc"]%string).
  rewrite <- (prefix_registers_nil (list_ascii_of_string expression) None)
    at 1.
  rewrite passes_prefix_registers.
  - apply prefix_registers_ext. intros w.
    rewrite app_nil_r, <- in_rev, !in_map_iff.
    split; intros [x [Hx Hin]]; exists x; (split; [exact Hx|]).
    + exact (proj1 (Hset _ _) Hin).
    + exact (proj2 (Hset _ _) Hin).
  - intros lit Hlit. apply in_map_iff in Hlit as [x [<- Hin]].
    apply identifier_chars. apply (proj1 (Hset _ _)) in Hin.
    unfold names in Hin.
    apply in_app_or in Hin as [Hin|[<-|[<-|[]]]];
      [now apply Hid | reflexivity | reflexivity].
Qed.

(** Witness of C8: the x86 register set, the names taken in list
    order.  Both tokens of [eax + ebx] are rewritten, [maxebx] is left as
    it is, and a reference that has its [$] keeps it. *)
Lemma fix_prefixes_register_names_witness :
  regs.fix_ (D := toy.debugger) (fun l => l) (toy.x86 0 0) "eax + ebx"
    = Ret "$eax + $ebx"%string
  /\ regs.fix_ (D := toy.debugger) (fun l => l) (toy.x86 0 0) "maxebx"
     = Ret "maxebx"%string
  /\ regs.fix_ (D := toy.debugger) (fun l => l) (toy.x86 0 0)
       "$eax + maxebx * (esp - eip2)"
     = Ret "$eax + maxebx * ($esp - eip2)"%string.
Proof.
  assert (Hid : forall name, In name (regs.all_of toy.i386) ->
                             spec.identifier name = true).
  { intros name Hin. cbn in Hin.
    repeat (destruct Hin as [<-|Hin]; [reflexivity|]). destruct Hin. }
  split; [|split].
  - exact (fix_prefixes_register_names (D := toy.debugger) (fun l => l)
             (toy.x86 0 0) toy.i386 "eax + ebx" eq_refl
             (fun l x => iff_refl _) Hid).
  - exact (fix_prefixes_register_names (D := toy.debugger) (fun l => l)
             (toy.x86 0 0) toy.i386 "maxebx" eq_refl
             (fun l x => iff_refl _) Hid).
  - exact (fix_prefixes_register_names (D := toy.debugger) (fun l => l)
             (toy.x86 0 0) toy.i386 "$eax + maxebx * (esp - eip2)" eq_refl
             (fun l x => iff_refl _) Hid).
Defined.

(** * Further properties of the code *)

(** ** [memory.string], [memory.poke], [memory.is_readable_address] *)

Section MoreMemoryFacts.
Context {P : Process}.

Lemma index_zero_split (bs : list Z) (i : nat) :
  memory.index_zero bs = Some i ->
  exists post, bs = firstn i bs ++ 0 :: post /\ ~ In 0 (firstn i bs).
Proof.
  revert i. induction bs as [|b bs IH]; intros i; cbn [memory.index_zero].
  - discriminate.
  - destruct (Z.eqb_spec b 0) as [->|Hb].
    + intros [= <-]. exists bs. split; [reflexivity|]. intros [].
    + destruct (memory.index_zero bs) as [j|]; [|discriminate].
      intros [= <-]. destruct (IH j eq_refl) as [post [Hs Hn]].
      exists post. cbn [firstn app]. split.
      * now rewrite <- Hs.
      * intros [H|H]; [congruence|contradiction].
Qed.

(** X1: whatever [string] returns has no zero byte in it, and a result
    that is not empty is followed by a zero byte in the bytes that were
    read: [string] never returns an unterminated text. *)
Theorem string_result_is_terminated (inf : inferior) (addr max : Z)
    (r : list Z) :
  memory.string inf addr max = Ret r ->
  ~ In 0 r
  /\ (r = []
      \/ exists post,
           memory.read inf addr max true = Ret (r ++ 0 :: post)).
Proof.
  unfold memory.string.
  destruct (truthy (memory.peek inf addr)).
  - destruct (memory.read inf addr max true) as [bs|e]; [|discriminate].
    destruct (memory.index_zero bs) as [i|] eqn:Hi.
    + intros [= <-]. destruct (index_zero_split bs i Hi) as [post [Hs Hn]].
      split; [exact Hn|]. right. exists post. now rewrite <- Hs.
    + intros [= <-]. split; [intros []|now left].
  - intros [= <-]. split; [intros []|now left].
Qed.

(** X2: on a byte below 0x80 [poke] hands [write_memory] that one byte
    at the same address, and reports whether the write returned; on an
    address it cannot read it reports [False] and writes nothing. *)
Theorem poke_writes_back_ascii (inf : inferior) (address : Z) :
  (memory.peek inf address = None ->
   memory.poke inf address = (inf, false))
  /\ (forall b,
        memory.peek inf address = Some [b] -> 0 <= b < 0x80 ->
        memory.poke inf address =
          match write_memory inf address [b] false with
          | (inf', Ret _) => (inf', true)
          | (inf', Raise _) => (inf', false)
          end).
Proof.
  unfold memory.poke. split.
  - now intros ->.
  - intros b -> Hb. unfold memory.write.
    cbn [memory.utf8_encode]. unfold memory.utf8_encode_char.
    destruct (Z.ltb_spec b 0x80); [reflexivity|lia].
Qed.

(** X3: an address is readable exactly when one of the mapped ranges
    contains it and a read of one byte there returns a byte; outside
    every range the answer is [False] whatever the memory would
    give. *)
Theorem is_readable_address_iff (ranges : inferior -> list memory.Page)
    (inf : inferior) (address : Z) :
  memory.is_readable_address ranges inf address = true
  <-> (exists page,
         In page (ranges inf)
         /\ memory.start page <= address < memory.end_ page)
      /\ (exists b bs, memory.read inf address 1 false = Ret (b :: bs)).
Proof.
  unfold memory.is_readable_address, memory.peek. split.
  - destruct (List.find _ (ranges inf)) as [page|] eqn:Hf; [|discriminate].
    apply find_some in Hf as [Hin Hc].
    unfold memory.contains in Hc. apply andb_true_iff in Hc as [H1 H2].
    destruct (memory.read inf address 1 false) as [[|b bs]|e];
      try discriminate.
    intros _. split.
    + exists page. split; [exact Hin|]. lia.
    + now exists b, bs.
  - intros [[page [Hin Hc]] [b [bs Hr]]]. rewrite Hr.
    destruct (List.find _ (ranges inf)) as [page'|] eqn:Hf; [reflexivity|].
    pose proof (find_none _ _ Hf page Hin) as Hn.
    unfold memory.contains in Hn.
    apply andb_false_iff in Hn as [Hn|Hn]; lia.
Qed.

End MoreMemoryFacts.

(** Witness of X1: the text [AB] and its terminator. *)
Lemma string_result_is_terminated_witness :
  ~ In 0 [0x41; 0x42]
  /\ ([0x41; 0x42] = []
      \/ exists post,
           memory.read (P := flat.process)
             (flat.region 0x1000 [0x41; 0x42; 0; 0x43] false) 0x1000 4096
             true
           = Ret ([0x41; 0x42] ++ 0 :: post)).
Proof.
  exact (string_result_is_terminated (P := flat.process)
           (flat.region 0x1000 [0x41; 0x42; 0; 0x43] false) 0x1000 4096
           [0x41; 0x42] eq_refl).
Defined.

(** Witness of X2: the byte 0x41 in writable and in read-only memory,
    and an address without memory. *)
Lemma poke_writes_back_ascii_witness :
  snd (memory.poke (P := flat.process)
         (flat.region 0x1000 [0x41] true) 0x1000) = true
  /\ snd (memory.poke (P := flat.process)
            (flat.region 0x1000 [0x41] false) 0x1000) = false
  /\ memory.poke (P := flat.process) (flat.region 0x1000 [0x41] true) 0x2000
     = (flat.region 0x1000 [0x41] true, false).
Proof.
  split; [|split].
  - rewrite (proj2 (poke_writes_back_ascii (P := flat.process)
                      (flat.region 0x1000 [0x41] true) 0x1000)
               0x41 eq_refl ltac:(lia)).
    reflexivity.
  - rewrite (proj2 (poke_writes_back_ascii (P := flat.process)
                      (flat.region 0x1000 [0x41] false) 0x1000)
               0x41 eq_refl ltac:(lia)).
    reflexivity.
  - exact (proj1 (poke_writes_back_ascii (P := flat.process)
                    (flat.region 0x1000 [0x41] true) 0x2000) eq_refl).
Defined.

(** Witness of X3: a mapped byte is readable. *)
Lemma is_readable_address_iff_witness :
  memory.is_readable_address (P := flat.process)
    (fun _ => [{| memory.start := 0x1000; memory.end_ := 0x2000 |}])
    (flat.region 0x1000 [0x41] false) 0x1000 = true.
Proof.
  apply (proj2 (is_readable_address_iff (P := flat.process)
                  (fun _ => [{| memory.start := 0x1000;
                                memory.end_ := 0x2000 |}])
                  (flat.region 0x1000 [0x41] false) 0x1000)).
  split.
  - exists {| memory.start := 0x1000; memory.end_ := 0x2000 |}.
    split; [now left|]. cbn. lia.
  - exists 0x41, []. reflexivity.
Defined.

(** ** Boundary search on any memory *)

Section MoreBoundaryFacts.
Context {P : Process}.

Lemma is_Error_eq (e : exn) : is_Error e = true -> e = Error.
Proof. destruct e; cbn; congruence. Qed.

Lemma readable_shift_up (inf : inferior) (a k : Z) :
  spec.readable_page inf a ->
  (forall i, 0 <= i < k ->
     spec.readable_page inf (a + memory.PAGE_SIZE + i * memory.PAGE_SIZE)) ->
  forall i, 0 <= i < k + 1 ->
    spec.readable_page inf (a + i * memory.PAGE_SIZE).
Proof.
  intros H0 Hk i Hi. destruct (Z.eq_dec i 0) as [->|Hne].
  - now rewrite Z.mul_0_l, Z.add_0_r.
  - replace (a + i * memory.PAGE_SIZE)
      with (a + memory.PAGE_SIZE + (i - 1) * memory.PAGE_SIZE)
      by (unfold memory.PAGE_SIZE; lia).
    apply Hk. lia.
Qed.

Lemma readable_shift_down (inf : inferior) (a k : Z) :
  spec.readable_page inf a ->
  (forall i, 0 <= i < k ->
     spec.readable_page inf (a - memory.PAGE_SIZE - i * memory.PAGE_SIZE)) ->
  forall i, 0 <= i < k + 1 ->
    spec.readable_page inf (a - i * memory.PAGE_SIZE).
Proof.
  intros H0 Hk i Hi. destruct (Z.eq_dec i 0) as [->|Hne].
  - now rewrite Z.mul_0_l, Z.sub_0_r.
  - replace (a - i * memory.PAGE_SIZE)
      with (a - memory.PAGE_SIZE - (i - 1) * memory.PAGE_SIZE)
      by (unfold memory.PAGE_SIZE; lia).
    apply Hk. lia.
Qed.

Lemma upper_loop_sound (inf : inferior) (ptrmask : Z) :
  forall (n : nat) (a r : Z),
    memory.upper_loop inf ptrmask n a = Ret r ->
    (exists k,
        1 <= k <= Z.of_nat n
        /\ (forall i, 0 <= i < k ->
              spec.readable_page inf (a + i * memory.PAGE_SIZE))
        /\ ptrmask < a + k * memory.PAGE_SIZE
        /\ r = ptrmask)
    \/ (exists k,
          0 <= k <= Z.of_nat n
          /\ (forall i, 0 <= i < k ->
                spec.readable_page inf (a + i * memory.PAGE_SIZE))
          /\ r = a + k * memory.PAGE_SIZE
          /\ (k < Z.of_nat n -> memory.read inf r 1 false = Raise Error)).
Proof.
  induction n as [|n IH]; intros a r; cbn [memory.upper_loop].
  - intros [= <-]. right. exists 0.
    split; [lia|]. split; [intros i Hi; lia|]. split; [cbn; lia|].
    cbn. lia.
  - destruct (memory.read inf a 1 false) as [bs|e] eqn:Hr.
    + assert (Ha : spec.readable_page inf a) by (now exists bs).
      cbv zeta. destruct (Z.ltb_spec ptrmask (a + memory.PAGE_SIZE)).
      * intros [= <-]. left. exists 1.
        split; [lia|]. split; [|split; [|reflexivity]].
        -- intros i Hi. replace i with 0 by lia.
           now rewrite Z.mul_0_l, Z.add_0_r.
        -- unfold memory.PAGE_SIZE in *. lia.
      * intros Hl. destruct (IH _ _ Hl) as [[k [Hk [Hp [Ho ->]]]]
                                           |[k [Hk [Hp [-> Hf]]]]].
        -- left. exists (k + 1).
           split; [lia|]. split; [|split; [|reflexivity]].
           ++ now apply readable_shift_up.
           ++ unfold memory.PAGE_SIZE in *. lia.
        -- right. exists (k + 1).
           split; [lia|]. split; [|split].
           ++ now apply readable_shift_up.
           ++ unfold memory.PAGE_SIZE. lia.
           ++ intros Hlt. apply Hf. lia.
    + destruct (is_Error e) eqn:He; [|discriminate].
      apply is_Error_eq in He. subst e. intros [= <-].
      right. exists 0.
      split; [lia|]. split; [intros i Hi; lia|]. split; [cbn; lia|].
      intros _. exact Hr.
Qed.

Lemma lower_loop_sound (inf : inferior) :
  forall (n : nat) (a r : Z),
    memory.lower_loop inf n a = Ret r ->
    (exists k,
        1 <= k <= Z.of_nat n
        /\ (forall i, 0 <= i < k ->
              spec.readable_page inf (a - i * memory.PAGE_SIZE))
        /\ a - k * memory.PAGE_SIZE < 0
        /\ r = 0)
    \/ (exists k,
          0 <= k < Z.of_nat n
          /\ (forall i, 0 <= i < k ->
                spec.readable_page inf (a - i * memory.PAGE_SIZE))
          /\ memory.read inf (a - k * memory.PAGE_SIZE) 1 false = Raise Error
          /\ r = a - k * memory.PAGE_SIZE + memory.PAGE_SIZE)
    \/ ((forall i, 0 <= i < Z.of_nat n ->
           spec.readable_page inf (a - i * memory.PAGE_SIZE))
        /\ r = a - Z.of_nat n * memory.PAGE_SIZE).
Proof.
  induction n as [|n IH]; intros a r; cbn [memory.lower_loop].
  - intros [= <-]. right. right. split; [intros i Hi; lia|].
    cbn. lia.
  - destruct (memory.read inf a 1 false) as [bs|e] eqn:Hr.
    + assert (Ha : spec.readable_page inf a) by (now exists bs).
      cbv zeta. destruct (Z.ltb_spec (a - memory.PAGE_SIZE) 0).
      * intros [= <-]. left. exists 1.
        split; [lia|]. split; [|split; [|reflexivity]].
        -- intros i Hi. replace i with 0 by lia.
           now rewrite Z.mul_0_l, Z.sub_0_r.
        -- unfold memory.PAGE_SIZE in *. lia.
      * intros Hl. destruct (IH _ _ Hl) as [[k [Hk [Hp [Ho ->]]]]
                                           |[[k [Hk [Hp [Hf ->]]]]
                                            |[Hp ->]]].
        -- left. exists (k + 1).
           split; [lia|]. split; [|split; [|reflexivity]].
           ++ now apply readable_shift_down.
           ++ unfold memory.PAGE_SIZE in *. lia.
        -- right. left. exists (k + 1).
           split; [lia|]. split; [|split].
           ++ now apply readable_shift_down.
           ++ rewrite <- Hf. f_equal. unfold memory.PAGE_SIZE. lia.
           ++ unfold memory.PAGE_SIZE. lia.
        -- right. right. split.
           ++ intros i Hi. apply (readable_shift_down inf a (Z.of_nat n));
                [exact Ha|exact Hp|lia].
           ++ unfold memory.PAGE_SIZE. lia.
    + destruct (is_Error e) eqn:He; [|discriminate].
      apply is_Error_eq in He. subst e. intros [= <-].
      right. left. exists 0.
      split; [lia|]. split; [intros i Hi; lia|]. split.
      * now rewrite Z.mul_0_l, Z.sub_0_r.
      * unfold memory.PAGE_SIZE. lia.
Qed.

(** X4: on any memory, an answer of [find_upper_boundary] other than
    the pointer mask is the page-aligned start plus some [k] pages, at
    most [max_pages], every one of which was read; and when the search
    stopped before its bound, the read at the answer failed.  The mask
    is answered only after a page was read and the next address passed
    the mask. *)
Theorem find_upper_boundary_sound (inf : inferior)
    (ptrmask addr max_pages r : Z) :
  memory.find_upper_boundary inf ptrmask addr max_pages = Ret r ->
  let start := memory.page_align addr in
  (exists k,
      1 <= k <= max_pages
      /\ (forall i, 0 <= i < k ->
            spec.readable_page inf (start + i * memory.PAGE_SIZE))
      /\ ptrmask < start + k * memory.PAGE_SIZE
      /\ r = ptrmask)
  \/ (exists k,
        0 <= k /\ (k <= max_pages \/ k = 0)
        /\ (forall i, 0 <= i < k ->
              spec.readable_page inf (start + i * memory.PAGE_SIZE))
        /\ r = start + k * memory.PAGE_SIZE
        /\ (k < max_pages -> memory.read inf r 1 false = Raise Error)).
Proof.
  unfold memory.find_upper_boundary. intros H. cbv zeta.
  destruct (upper_loop_sound inf ptrmask _ _ _ H)
    as [[k [Hk [Hp [Ho Hr]]]]|[k [Hk [Hp [Hr Hf]]]]].
  - left. exists k. split; [lia|]. now repeat split.
  - right. exists k. split; [lia|]. split; [lia|].
    split; [exact Hp|]. split; [exact Hr|].
    intros Hlt. apply Hf. lia.
Qed.


End MoreBoundaryFacts.

(** Witness of X4 and X5: one readable page at 0x1000. *)
Lemma find_upper_boundary_sound_witness :
  (exists k,
      1 <= k <= 1024
      /\ (forall i, 0 <= i < k ->
            spec.readable_page (P := flat.process) (flat.pages 0x1000 1)
              (memory.page_align 0x1234 + i * memory.PAGE_SIZE))
      /\ Arch.ptrmask 8 < memory.page_align 0x1234 + k * memory.PAGE_SIZE
      /\ 0x2000 = Arch.ptrmask 8)
  \/ (exists k,
        0 <= k /\ (k <= 1024 \/ k = 0)
        /\ (forall i, 0 <= i < k ->
              spec.readable_page (P := flat.process) (flat.pages 0x1000 1)
                (memory.page_align 0x1234 + i * memory.PAGE_SIZE))
        /\ 0x2000 = memory.page_align 0x1234 + k * memory.PAGE_SIZE
        /\ (k < 1024 ->
            memory.read (P := flat.process) (flat.pages 0x1000 1)
              0x2000 1 false = Raise Error)).
Proof.
  exact (find_upper_boundary_sound (P := flat.process)
           (flat.pages 0x1000 1) (Arch.ptrmask 8) 0x1234 1024 0x2000
           eq_refl).
Defined.


(** ** Register values and names *)

Section MoreFacadeFacts.
Context {D : Debugger}.

Lemma land_ptrmask_range (ptrsize x : Z) :
  0 <= ptrsize -> 0 <= Z.land x (Arch.ptrmask ptrsize) <= Arch.ptrmask ptrsize.
Proof.
  intros Hp. rewrite land_ptrmask by assumption.
  unfold Arch.ptrmask. rewrite Z.shiftl_1_l.
  pose proof (Z.mod_pos_bound x (2 ^ (8 * ptrsize))
                ltac:(apply Z.pow_pos_nonneg; lia)).
  lia.
Qed.

Lemma getattr_range (e : dbg) (attr : String.string) (v : Z) :
  0 <= arch_ptrsize e ->
  regs.__getattr__ e attr = Some v -> 0 <= v <= regs.ptrmask e.
Proof.
  intros Hp. unfold regs.__getattr__, regs.ptrmask.
  destruct (regs.int_value e (str.lstrip_dollar attr)) as [x|]; [|discriminate].
  destruct (String.eqb (str.lstrip_dollar attr) "pc"
            && String.eqb (arch_name e) "i8086").
  - destruct (regs.int_value e "cs") as [cs|]; [|discriminate].
    intros [= <-]. now apply land_ptrmask_range.
  - intros [= <-]. now apply land_ptrmask_range.
Qed.

Lemma getitem_range (e : dbg) (item : String.string) (v : Z) :
  0 <= arch_ptrsize e ->
  regs.__getitem__ e item = Some v -> 0 <= v <= regs.ptrmask e.
Proof.
  intros Hp. unfold regs.__getitem__.
  destruct (regs.__getattr__ e _) as [x|]; [|discriminate].
  intros [= <-]. now apply land_ptrmask_range.
Qed.


Lemma lstrip_dollar_idem (s : String.string) :
  str.lstrip_dollar (str.lstrip_dollar s) = str.lstrip_dollar s.
Proof.
  induction s as [|c s IH]; cbn [str.lstrip_dollar]; [reflexivity|].
  destruct (Ascii.eqb c "$") eqn:Hc; [exact IH|].
  cbn [str.lstrip_dollar]. now rewrite Hc.
Qed.

Lemma lower_lstrip_dollar (s : String.string) :
  str.lower s = s -> str.lower (str.lstrip_dollar s) = str.lstrip_dollar s.
Proof.
  induction s as [|c s IH]; cbn [str.lower str.lstrip_dollar];
    [reflexivity|].
  intros [= Hc Hs]. destruct (Ascii.eqb c "$").
  - now apply IH.
  - cbn [str.lower]. now rewrite Hc, Hs.
Qed.


(** X8: assigning [last] or [previous] stores the value in the facade,
    where it reads back, and leaves the debugger alone.  Assigning any
    other name without a selected frame is an [AttributeError], and
    with a value [int] rejects the error of [int]; in both cases neither
    the facade nor the debugger changes. *)
Theorem setattr_edges (e : dbg) (m : regs.module) (attr : String.string)
    (val : regs.pyval) :
  (regs.__setattr__ e m "last" val
   = (e, {| regs.previous := regs.previous m; regs.last := val |}, Ret tt))
  /\ (regs.__setattr__ e m "previous" val
      = (e, {| regs.previous := val; regs.last := regs.last m |}, Ret tt))
  /\ (attr <> "last"%string -> attr <> "previous"%string ->
      selected_frame e = None ->
      regs.__setattr__ e m attr val = (e, m, Raise AttributeError))
  /\ (forall frame ex,
        attr <> "last"%string -> attr <> "previous"%string ->
        selected_frame e = Some frame -> regs.int val = Raise ex ->
        regs.__setattr__ e m attr val = (e, m, Raise ex)).
Proof.
  split; [reflexivity|]. split; [reflexivity|].
  split.
  - intros Hl Hp Hf. unfold regs.__setattr__.
    apply String.eqb_neq in Hl. apply String.eqb_neq in Hp.
    now rewrite Hl, Hp, Hf.
  - intros frame ex Hl Hp Hf Hi. unfold regs.__setattr__.
    apply String.eqb_neq in Hl. apply String.eqb_neq in Hp.
    now rewrite Hl, Hp, Hf, Hi.
Qed.

End MoreFacadeFacts.



(** Witness of X8: no frame, and a value that is not a number. *)
Lemma setattr_edges_witness :
  regs.__setattr__ (D := toy.debugger)
    (toy.machine "i386" 4 []) regs.initial "eax" regs.VNone
  = (toy.machine "i386" 4 [], regs.initial, Raise TypeError)
  /\ regs.__setattr__ (D := toy.debugger)
       {| toy.has_frame := false; toy.file := []; toy.name := "i386";
          toy.ptrsize := 4 |} regs.initial "eax" (regs.VInt 1)
     = ({| toy.has_frame := false; toy.file := []; toy.name := "i386";
           toy.ptrsize := 4 |}, regs.initial, Raise AttributeError).
Proof.
  split.
  - exact (proj2 (proj2 (proj2 (setattr_edges (D := toy.debugger)
             (toy.machine "i386" 4 []) regs.initial "eax" regs.VNone)))
             tt TypeError ltac:(discriminate) ltac:(discriminate)
             eq_refl eq_refl).
  - exact (proj1 (proj2 (proj2 (setattr_edges (D := toy.debugger)
             {| toy.has_frame := false; toy.file := []; toy.name := "i386";
                toy.ptrsize := 4 |} regs.initial "eax" (regs.VInt 1))))
             ltac:(discriminate) ltac:(discriminate) eq_refl).
Defined.

(** ** More on change tracking *)

Section MoreChangeFacts.
Context {D : Debugger}.

Lemma add_key_In (ks : list String.string) (k x : String.string) :
  In x (spec.add_key ks k) <-> In x ks \/ x = k.
Proof.
  unfold spec.add_key. destruct (existsb (String.eqb k) ks) eqn:He.
  - apply existsb_exists in He as [y [Hy Hk]].
    apply String.eqb_eq in Hk. subst y. split; [tauto|].
    intros [H| ->]; assumption.
  - rewrite in_app_iff. cbn. intuition auto.
Qed.

Lemma add_key_NoDup (ks : list String.string) (k : String.string) :
  NoDup ks -> NoDup (spec.add_key ks k).
Proof.
  intros Hn. unfold spec.add_key.
  destruct (existsb (String.eqb k) ks) eqn:He; [exact Hn|].
  apply NoDup_app; [exact Hn|repeat constructor; intros []|].
  intros x Hx [Hk|[]]. subst x.
  assert (Ht : existsb (String.eqb k) ks = true).
  { apply existsb_exists. exists k. split; [exact Hx|apply String.eqb_refl]. }
  congruence.
Qed.

Lemma fold_add_key (l : list String.string) :
  forall ks,
    NoDup ks ->
    NoDup (fold_left spec.add_key l ks)
    /\ (forall x, In x (fold_left spec.add_key l ks) <-> In x ks \/ In x l).
Proof.
  induction l as [|k l IH]; intros ks Hn; cbn [fold_left].
  - split; [exact Hn|]. intros x. cbn. tauto.
  - destruct (IH _ (add_key_NoDup ks k Hn)) as [Hnd Hin].
    split; [exact Hnd|]. intros x. rewrite Hin, add_key_In. cbn.
    split; intros H; intuition auto.
Qed.

(** The keys of a snapshot: each name once, and the same names. *)
Lemma keys_of_NoDup (l : list String.string) : NoDup (spec.keys_of l).
Proof. exact (proj1 (fold_add_key l [] (NoDup_nil _))). Qed.

Lemma keys_of_In (l : list String.string) (x : String.string) :
  In x (spec.keys_of l) <-> In x l.
Proof.
  unfold spec.keys_of. rewrite (proj2 (fold_add_key l [] (NoDup_nil _))).
  cbn. tauto.
Qed.

Lemma opt_eqb_eq (a b : option Z) : regs.opt_eqb a b = true <-> a = b.
Proof.
  destruct a as [x|], b as [y|]; cbn; try (split; congruence).
  rewrite Z.eqb_eq. split; congruence.
Qed.

Lemma filter_only (f : String.string -> bool) (l : list String.string)
    (r : String.string) :
  NoDup l -> In r l -> f r = true ->
  (forall x, In x l -> x <> r -> f x = false) ->
  filter f l = [r].
Proof.
  induction l as [|a l IH]; intros Hn Hin Hr Hf; [destruct Hin|].
  inversion Hn as [|? ? Hna Hnl]; subst. cbn [filter].
  destruct Hin as [->|Hin].
  - rewrite Hr. f_equal. apply filter_nothing. intros x Hx.
    apply Hf; [now right|]. intros ->. contradiction.
  - rewrite (Hf a) by (now left || (intros ->; contradiction)).
    apply IH; try assumption. intros x Hx. apply Hf. now right.
Qed.

(** X9: two events on one architecture, and between them exactly one
    common register [r] changed its reading.  After the second event
    [changed] is the list with [r] alone, [previous] has the reading of
    [r] before the change and [last] the reading after it. *)
Theorem changed_is_the_written_register (rs : RegisterSet.t)
    (e1 e2 : dbg) (m : regs.module) (r : String.string) :
  reg_sets (arch_name e1) = Some rs ->
  reg_sets (arch_name e2) = Some rs ->
  In r (RegisterSet.common rs) ->
  regs.__getitem__ e2 r <> regs.__getitem__ e1 r ->
  (forall k, In k (RegisterSet.common rs) -> k <> r ->
     regs.__getitem__ e2 k = regs.__getitem__ e1 k) ->
  let m2 := fst (regs.update_last e2 (fst (regs.update_last e1 m))) in
  regs.changed e2 m2 = Ret [r]
  /\ (exists d, regs.previous m2 = regs.VDict d
                /\ regs.dict_get r d = Some (regs.__getitem__ e1 r))
  /\ (exists d, regs.last m2 = regs.VDict d
                /\ regs.dict_get r d = Some (regs.__getitem__ e2 r)).
Proof.
  intros H1 H2 Hr Hne Hsame. cbv zeta.
  rewrite (update_last_shifts rs e1 m H1). cbn [fst].
  rewrite (update_last_shifts rs e2 _ H2). cbn [fst regs.last regs.previous].
  assert (Hk : In r (spec.keys_of (RegisterSet.common rs)))
    by (now apply keys_of_In).
  split; [|split].
  - unfold regs.changed. cbn [regs.previous].
    rewrite changed_loop_readings. f_equal.
    apply filter_only; [apply keys_of_NoDup|exact Hk| |].
    + apply negb_true_iff. destruct (regs.opt_eqb _ _) eqn:E; [|reflexivity].
      apply opt_eqb_eq in E. contradiction.
    + intros x Hx Hxr. apply negb_false_iff. apply opt_eqb_eq.
      apply Hsame; [now apply keys_of_In|exact Hxr].
  - eexists. split; [reflexivity|]. now apply dict_get_readings.
  - eexists. split; [reflexivity|]. now apply dict_get_readings.
Qed.

(** X10: in every state that events lead to, [changed] names common
    registers only, and each at most once. *)
Theorem changed_within_common (rs : RegisterSet.t) (e : dbg)
    (m : regs.module) (l : list String.string) :
  spec.reachable rs m ->
  regs.changed e m = Ret l ->
  NoDup l /\ (forall r, In r l -> In r (RegisterSet.common rs)).
Proof.
  intros Hm. destruct (reachable_generations rs m Hm) as [[Hp|[e0 Hp]] _];
    unfold regs.changed; rewrite Hp.
  - intros [= <-]. split; [constructor|intros r []].
  - rewrite changed_loop_readings. intros [= <-]. split.
    + apply NoDup_filter, keys_of_NoDup.
    + intros r Hin. apply filter_In in Hin as [Hin _].
      now apply keys_of_In.
Qed.

End MoreChangeFacts.

(** Witness of X9: [ebx] goes from 2 to 3 between two stops. *)
Lemma changed_is_the_written_register_witness :
  regs.changed (D := toy.debugger) (toy.x86 1 3)
    (fst (regs.update_last (D := toy.debugger) (toy.x86 1 3)
            (fst (regs.update_last (D := toy.debugger) (toy.x86 1 2)
                    regs.initial))))
  = Ret ["ebx"%string].
Proof.
  refine (proj1 (changed_is_the_written_register (D := toy.debugger)
                   toy.i386 (toy.x86 1 2) (toy.x86 1 3) regs.initial "ebx"
                   eq_refl eq_refl _ _ _)).
  - cbn. tauto.
  - discriminate.
  - intros k Hk Hne. cbn in Hk.
    repeat (destruct Hk as [<-|Hk]; [reflexivity || congruence|]).
    destruct Hk.
Defined.

(** Witness of X10: the same two stops. *)
Lemma changed_within_common_witness :
  NoDup ["ebx"%string]
  /\ (forall r, In r ["ebx"%string] -> In r (RegisterSet.common toy.i386)).
Proof.
  exact (changed_within_common (D := toy.debugger) toy.i386 (toy.x86 1 3)
           (fst (regs.update_last (D := toy.debugger) (toy.x86 1 3)
                   (fst (regs.update_last (D := toy.debugger) (toy.x86 1 2)
                           regs.initial))))
           ["ebx"%string]
           (spec.reach_event (D := toy.debugger) toy.i386 (toy.x86 1 3) _
              (spec.reach_event (D := toy.debugger) toy.i386 (toy.x86 1 2) _
                 (spec.reach_initial (D := toy.debugger) toy.i386) eq_refl)
              eq_refl)
           eq_refl).
Defined.

(** ** More on [fix] *)

Section MoreFixFacts.
Context {D : Debugger}.

(** The passes of [fix] as one scan, for use below. *)
Lemma fix_as_scan (set_order : list String.string -> list String.string)
    (e : dbg) (rs : RegisterSet.t) (expression : String.string) :
  reg_sets (arch_name e) = Some rs ->
  (forall l x, In x (set_order l) <-> In x l) ->
  (forall name, In name (regs.all_of rs) -> spec.identifier name = true) ->
  regs.fix_ set_order e expression
  = Ret (string_of_list_ascii
           (spec.prefix_registers
              (map list_ascii_of_string
                 (regs.all_of rs ++ ["sp"; "pc"]%string))
              None (list_ascii_of_string expression))).
Proof.
  intros Hrs Hset Hid.
  unfold regs.fix_, regs.all, regs.current. rewrite Hrs. f_equal.
  rewrite fold_sub_register. f_equal.
  rewrite <- (prefix_registers_nil (list_ascii_of_string expression) None)
    at 1.
  rewrite passes_prefix_registers.
  - apply prefix_registers_ext. intros w.
    rewrite app_nil_r, <- in_rev, !in_map_iff.
    split; intros [x [Hx Hin]]; exists x; (split; [exact Hx|]).
    + exact (proj1 (Hset _ _) Hin).
    + exact (proj2 (Hset _ _) Hin).
  - intros lit Hlit. apply in_map_iff in Hlit as [x [<- Hin]].
    apply identifier_chars. apply (proj1 (Hset _ _)) in Hin.
    apply in_app_or in Hin as [Hin|[<-|[<-|[]]]];
      [now apply Hid | reflexivity | reflexivity].
Qed.

(** Scanning for two sets of names, one after the other, is scanning
    for their union. *)
Lemma prefix_registers_app (names1 names2 : list (list ascii))
    (s : list ascii) (prev : option ascii) :
  spec.prefix_registers names1 prev (spec.prefix_registers names2 prev s)
  = spec.prefix_registers (names1 ++ names2) prev s.
Proof.
  revert s. induction names1 as [|lit names1 IH]; intros s.
  - apply prefix_registers_nil.
  - rewrite <- (prefix_registers_compose lit names1).
    rewrite IH. apply prefix_registers_compose.
Qed.

Lemma prefix_registers_idem (names : list (list ascii)) (s : list ascii)
    (prev : option ascii) :
  spec.prefix_registers names prev (spec.prefix_registers names prev s)
  = spec.prefix_registers names prev s.
Proof.
  rewrite prefix_registers_app. apply prefix_registers_ext.
  intros w. rewrite in_app_iff. tauto.
Qed.

Lemma length_of_chars (l : list ascii) :
  String.length (string_of_list_ascii l) = List.length l.
Proof. induction l as [|c l IH]; cbn; [reflexivity|now rewrite IH]. Qed.

Lemma prefix_registers_keeps_text (names : list (list ascii))
    (s : list ascii) :
  forall prev,
    filter spec.not_dollar (spec.prefix_registers names prev s)
    = filter spec.not_dollar s
    /\ (List.length s <= List.length (spec.prefix_registers names prev s))%nat.
Proof.
  induction s as [|c s IH]; intros prev; [split; reflexivity|].
  destruct (IH (Some c)) as [Hf Hl].
  cbn [spec.prefix_registers].
  destruct (re.is_word c && negb (re.is_word_opt prev)
            && negb (spec.is_dollar prev)
            && spec.mem (c :: spec.take_word s) names).
  - split.
    + change (filter spec.not_dollar ("$"%char :: c :: spec.prefix_registers names (Some c) s))
        with (filter spec.not_dollar (c :: spec.prefix_registers names (Some c) s)).
      cbn [filter]. now rewrite Hf.
    + cbn [List.length]. lia.
  - split.
    + cbn [filter]. now rewrite Hf.
    + cbn [List.length]. lia.
Qed.

(** X11: [fix] is idempotent: an expression that went through [fix]
    comes out of a second [fix] as it is, no [$] is doubled. *)
Theorem fix_idempotent (set_order : list String.string -> list String.string)
    (e : dbg) (rs : RegisterSet.t) (expression fixed : String.string) :
  reg_sets (arch_name e) = Some rs ->
  (forall l x, In x (set_order l) <-> In x l) ->
  (forall name, In name (regs.all_of rs) -> spec.identifier name = true) ->
  regs.fix_ set_order e expression = Ret fixed ->
  regs.fix_ set_order e fixed = Ret fixed.
Proof.
  intros Hrs Hset Hid.
  rewrite !(fix_as_scan set_order e rs _ Hrs Hset Hid).
  intros [= <-]. f_equal.
  rewrite list_ascii_of_string_of_list_ascii.
  now rewrite prefix_registers_idem.
Qed.

(** X12: [fix] only inserts [$] characters: with every [$] taken out,
    the result and the expression are the same text, and the result is
    not shorter than the expression. *)
Theorem fix_only_inserts_dollars
    (set_order : list String.string -> list String.string)
    (e : dbg) (rs : RegisterSet.t) (expression fixed : String.string) :
  reg_sets (arch_name e) = Some rs ->
  (forall l x, In x (set_order l) <-> In x l) ->
  (forall name, In name (regs.all_of rs) -> spec.identifier name = true) ->
  regs.fix_ set_order e expression = Ret fixed ->
  filter spec.not_dollar (list_ascii_of_string fixed)
  = filter spec.not_dollar (list_ascii_of_string expression)
  /\ (String.length expression <= String.length fixed)%nat.
Proof.
  intros Hrs Hset Hid.
  rewrite (fix_as_scan set_order e rs _ Hrs Hset Hid).
  intros [= <-]. rewrite list_ascii_of_string_of_list_ascii.
  destruct (prefix_registers_keeps_text
              (map list_ascii_of_string
                 (regs.all_of rs ++ ["sp"; "pc"]%string))
              (list_ascii_of_string expression) None) as [Hf Hl].
  split; [exact Hf|].
  rewrite <- (string_of_list_ascii_of_string expression) at 1.
  now rewrite !length_of_chars.
Qed.

End MoreFixFacts.

Lemma i386_names_are_identifiers :
  forall name, In name (regs.all_of toy.i386) -> spec.identifier name = true.
Proof.
  intros name Hin. cbn in Hin.
  repeat (destruct Hin as [<-|Hin]; [reflexivity|]). destruct Hin.
Qed.

(** Witness of X11: [eax + ebx] fixed once and twice. *)
Lemma fix_idempotent_witness :
  regs.fix_ (D := toy.debugger) (fun l => l) (toy.x86 0 0) "$eax + $ebx"
  = Ret "$eax + $ebx"%string.
Proof.
  exact (fix_idempotent (D := toy.debugger) (fun l => l) (toy.x86 0 0)
           toy.i386 "eax + ebx" "$eax + $ebx" eq_refl
           (fun l x => iff_refl _) i386_names_are_identifiers eq_refl).
Defined.

(** Witness of X12: [eax + ebx] and [$eax + $ebx] without their [$]. *)
Lemma fix_only_inserts_dollars_witness :
  filter spec.not_dollar (list_ascii_of_string "$eax + $ebx")
  = filter spec.not_dollar (list_ascii_of_string "eax + ebx")
  /\ (String.length "eax + ebx" <= String.length "$eax + $ebx")%nat.
Proof.
  exact (fix_only_inserts_dollars (D := toy.debugger) (fun l => l)
           (toy.x86 0 0) toy.i386 "eax + ebx" "$eax + $ebx" eq_refl
           (fun l x => iff_refl _) i386_names_are_identifiers eq_refl).
Defined.

(** ** The Thumb mode *)

(** X13: [read_thumb_bit] answers 0, 1 or [None] and nothing else, and
    [get_thumb_mode_string] is ["thumb"] exactly when the bit is 1,
    ["arm"] exactly when it is 0, and [None] exactly when there is no
    bit. *)
Theorem thumb_mode_follows_bit {D : Debugger} (e : dbg) :
  (forall b, arch.read_thumb_bit e = Some b -> b = 0 \/ b = 1)
  /\ (arch.get_thumb_mode_string e = Some "thumb"%string
      <-> arch.read_thumb_bit e = Some 1)
  /\ (arch.get_thumb_mode_string e = Some "arm"%string
      <-> arch.read_thumb_bit e = Some 0)
  /\ (arch.get_thumb_mode_string e = None
      <-> arch.read_thumb_bit e = None).
Proof.
  assert (Hbit : forall b, arch.read_thumb_bit e = Some b -> b = 0 \/ b = 1).
  { intros b. unfold arch.read_thumb_bit.
    destruct (String.eqb (arch.current e) "arm").
    - destruct (regs.__getattr__ e "cpsr") as [c|]; [|discriminate].
      intros H. assert (Hb : b = Z.land (Z.shiftr c 5) 1) by congruence.
      rewrite Hb, shiftr_land_one by lia.
      destruct (Z.testbit c 5); cbn; auto.
    - destruct (String.eqb (arch.current e) "armcm"); [|discriminate].
      destruct (regs.__getattr__ e "xpsr") as [c|]; [|discriminate].
      intros H. assert (Hb : b = Z.land (Z.shiftr c 24) 1) by congruence.
      rewrite Hb, shiftr_land_one by lia.
      destruct (Z.testbit c 24); cbn; auto. }
  split; [exact Hbit|].
  unfold arch.get_thumb_mode_string.
  destruct (arch.read_thumb_bit e) as [b|] eqn:Hb.
  - destruct (Hbit b eq_refl) as [->| ->]; cbn;
      repeat split; intros H; congruence.
  - repeat split; intros H; congruence.
Qed.

(** ** Selection in the GDB adapter, the paths that keep it *)

Section MoreSelectionFacts.
Context {api : gdb.Api}.

(** X14: [evaluate_expression] leaves the engine exactly as it found
    it whenever the evaluation returns a value, whenever the target
    frame is the selected one already, and whenever no frame is
    selected (the call then fails before it selects anything). *)
Theorem evaluate_expression_keeps_selection (g g' : gdb.engine)
    (inner : gdb.frame) (expression : String.string)
    (r : result gdb.value) :
  gdb.GDBFrame.evaluate_expression inner expression g = (g', r) ->
  (exists v, r = Ret v)
  \/ gdb.sel_frame g = Some inner
  \/ gdb.sel_frame g = None ->
  g' = g.
Proof.
  intros He Hc. destruct Hc as [[v ->]|[Hs|Hs]].
  - exact (evaluate_expression_success_restores g g' inner expression v He).
  - revert He. unfold gdb.GDBFrame.evaluate_expression, gdb.selected_frame.
    rewrite Hs, Nat.eqb_refl. cbn [negb]. rewrite Hs.
    destruct (gdb.parse_and_eval _ _); now intros [= <- _].
  - revert He. unfold gdb.GDBFrame.evaluate_expression, gdb.selected_frame.
    rewrite Hs. now intros [= <- _].
Qed.


End MoreSelectionFacts.

(** Witness of X14: frame 0 selected, an expression evaluated in
    frame 1. *)
Lemma evaluate_expression_keeps_selection_witness :
  fst (gdb.GDBFrame.evaluate_expression (api := scripted.api) 1%nat "1"
         {| gdb.sel_frame := Some 0%nat; gdb.sel_thread := Some 1%nat |})
  = {| gdb.sel_frame := Some 0%nat; gdb.sel_thread := Some 1%nat |}.
Proof.
  exact (evaluate_expression_keeps_selection (api := scripted.api)
           {| gdb.sel_frame := Some 0%nat; gdb.sel_thread := Some 1%nat |}
           _ 1%nat "1" (Ret 1) eq_refl
           (or_introl (ex_intro _ 1 eq_refl))).
Defined.


(** Witness of X13: [cpsr] with and without bit 5. *)
Lemma thumb_mode_follows_bit_witness :
  arch.get_thumb_mode_string (D := toy.debugger)
    (toy.machine "arm" 4 [("cpsr"%string, (0x30, 4))]) = Some "thumb"%string
  /\ arch.get_thumb_mode_string (D := toy.debugger)
       (toy.machine "arm" 4 [("cpsr"%string, (0x10, 4))]) = Some "arm"%string.
Proof.
  split.
  - exact (proj2 (proj1 (proj2 (thumb_mode_follows_bit (D := toy.debugger)
             (toy.machine "arm" 4 [("cpsr"%string, (0x30, 4))]))))
             eq_refl).
  - exact (proj2 (proj1 (proj2 (proj2 (thumb_mode_follows_bit
             (D := toy.debugger)
             (toy.machine "arm" 4 [("cpsr"%string, (0x10, 4))])))))
             eq_refl).
Defined.

(** ** More on address formatting *)

Lemma spaces_then_zero (n1 n2 : nat) (s1 s2 : String.string) :
  (gdb.GDB.spaces n1 ++ String "0" s1)%string
  = (gdb.GDB.spaces n2 ++ String "0" s2)%string ->
  s1 = s2.
Proof.
  revert n2. induction n1 as [|n1 IH]; intros [|n2]; cbn.
  - now intros [= ->].
  - discriminate.
  - discriminate.
  - intros [= H]. now apply (IH n2).
Qed.

Lemma hex_digits_inj (x y : Z) :
  0 <= x -> 0 <= y ->
  gdb.GDB.hex_digits x = gdb.GDB.hex_digits y -> x = y.
Proof.
  intros Hx Hy H.
  pose proof (hex_digits_denote x) as Dx.
  pose proof (hex_digits_denote y) as Dy.
  rewrite H in Dx. rewrite Dx in Dy. injection Dy as Dy. lia.
Qed.

(** X16: two addresses get the same text from [addrsz] exactly when
    they agree in their low [8 * ptrsize] bits: the text loses nothing
    of the masked address, and nothing above the pointer width shows. *)
Theorem addrsz_distinguishes_addresses (ptrsize a b : Z) :
  0 < ptrsize ->
  gdb.GDB.addrsz ptrsize a = gdb.GDB.addrsz ptrsize b
  <-> a mod 2 ^ (8 * ptrsize) = b mod 2 ^ (8 * ptrsize).
Proof.
  intros Hp. unfold gdb.GDB.addrsz.
  rewrite !land_ptrmask by lia. split.
  - unfold gdb.GDB.format_alt_hex. cbn [String.append].
    intros H. apply spaces_then_zero in H. injection H as H.
    apply hex_digits_inj; [| |exact H];
      apply Z.mod_pos_bound, Z.pow_pos_nonneg; lia.
  - now intros ->.
Qed.

(** Witness of X16: -1 and 0xffffffff on a 32-bit target. *)
Lemma addrsz_distinguishes_addresses_witness :
  gdb.GDB.addrsz 4 (-1) = gdb.GDB.addrsz 4 0xffffffff.
Proof.
  exact (proj2 (addrsz_distinguishes_addresses 4 (-1) 0xffffffff
                  ltac:(lia)) eq_refl).
Defined.

(** ** The size of the command window *)

Section WindowFacts.

Lemma index_first (x : String.string) (pre post : list String.string) :
  ~ In x pre -> text.index x (pre ++ x :: post) = Some (List.length pre).
Proof.
  induction pre as [|y pre IH]; intros Hn; cbn [app text.index List.length].
  - now rewrite String.eqb_refl.
  - destruct (String.eqb_spec y x) as [->|_].
    + exfalso. apply Hn. now left.
    + rewrite IH; [reflexivity|]. intros H. apply Hn. now right.
Qed.

Lemma index_absent (x : String.string) (l : list String.string) :
  ~ In x l -> text.index x l = None.
Proof.
  induction l as [|y l IH]; intros Hn; cbn [text.index]; [reflexivity|].
  destruct (String.eqb_spec y x) as [->|_].
  - exfalso. apply Hn. now left.
  - rewrite IH; [reflexivity|]. intros H. apply Hn. now right.
Qed.

Lemma digit_not_sign (c : ascii) :
  text.is_ascii_digit c = true ->
  Ascii.eqb c "+" = false /\ Ascii.eqb c "-" = false
  /\ Ascii.eqb c "_" = false.
Proof.
  intros H. repeat split;
    match goal with
    | |- Ascii.eqb c ?x = false =>
        destruct (Ascii.eqb_spec c x) as [->|_]; [discriminate H|reflexivity]
    end.
Qed.

Lemma digits_of_digit_text (s : list ascii) :
  forallb text.is_ascii_digit s = true ->
  forall acc after,
    s <> [] \/ after = true ->
    text.digits acc after s
    = Some (fold_left
              (fun acc c => 10 * acc + (Z.of_nat (nat_of_ascii c) - 48))
              s acc).
Proof.
  induction s as [|c s IH]; intros Hd acc after Hne.
  - destruct Hne as [Hne| ->]; [congruence|reflexivity].
  - cbn [forallb] in Hd. apply andb_true_iff in Hd as [Hc Hs].
    cbn [text.digits fold_left]. rewrite Hc. apply IH; [exact Hs|now right].
Qed.

Lemma int_of_digit_text (s : String.string) :
  spec.digit_text s = true -> text.int s = Some (spec.decimal s).
Proof.
  unfold spec.digit_text, text.int, spec.decimal.
  destruct (list_ascii_of_string s) as [|c cs] eqn:Hs; [discriminate|].
  intros Hd. pose proof Hd as Hd'. cbn [forallb] in Hd'.
  apply andb_true_iff in Hd' as [Hc _].
  destruct (digit_not_sign c Hc) as [-> [-> _]].
  apply digits_of_digit_text; [exact Hd|left; discriminate].
Qed.

Lemma isdigit_of_digit_text (s : String.string) :
  spec.digit_text s = true -> text.isdigit s = true.
Proof.
  unfold spec.digit_text, text.isdigit.
  destruct (list_ascii_of_string s) as [|c cs]; [discriminate|].
  intros Hd. apply forallb_forall. intros x Hx.
  rewrite forallb_forall in Hd. now rewrite (Hd x Hx).
Qed.

Context {console : gdb.GDB.Console}.


End WindowFacts.


(** ** Breakpoints on conditional branches *)

Section BranchFacts.
Context {env : branch.Env}.

(** X18: with an assistant for the architecture, of the two
    breakpoints on one instruction, the one that waits for the branch
    to be taken and the one that waits for it not to be, exactly one
    stops; the first stops unless the condition is known to be 0, so an
    unconditional jump stops it.  Without an assistant [stop] raises. *)
Theorem stop_taken_or_not (i : branch.instruction) :
  (forall condition,
     branch.for_current_arch = Some condition ->
     exists b,
       branch.stop {| branch.bp_instruction := i; branch.taken := true |}
       = Ret b
       /\ branch.stop {| branch.bp_instruction := i; branch.taken := false |}
          = Ret (negb b)
       /\ (b = false <-> condition i = Some 0))
  /\ (branch.for_current_arch = None ->
      forall t,
        branch.stop {| branch.bp_instruction := i; branch.taken := t |}
        = Raise AttributeError).
Proof.
  unfold branch.stop. cbn [branch.bp_instruction branch.taken]. split.
  - intros condition ->. destruct (condition i) as [c|].
    + destruct (Z.eqb_spec c 0) as [->|Hc]; cbn.
      * exists false. repeat split; reflexivity.
      * exists true. repeat split; try reflexivity; try discriminate.
        intros [= H]. contradiction.
    + cbn. exists true. repeat split; try reflexivity; discriminate.
  - now intros ->.
Qed.

Lemma install_at_installed (a : Z) (t : bool) (printed msgs : list branch.message)
    (bp : branch.BreakOnConditionalBranch) :
  branch.install_at a t printed = (msgs, branch.Installed bp) ->
  msgs = printed
  /\ branch.taken bp = t
  /\ branch.one a = Some (branch.bp_instruction bp)
  /\ In branch.CS_GRP_JUMP (branch.groups (branch.bp_instruction bp))
  /\ branch.for_current_arch <> None.
Proof.
  unfold branch.install_at.
  destruct (branch.one a) as [i|]; [|discriminate].
  destruct (branch.in_groups branch.CS_GRP_JUMP (branch.groups i)) eqn:Hg;
    cbn [negb]; [|discriminate].
  destruct branch.for_current_arch; [|discriminate].
  intros [= <- <-]. cbn. repeat split; try discriminate.
  unfold branch.in_groups in Hg. apply existsb_exists in Hg as [g [Hin Hg]].
  apply Z.eqb_eq in Hg. now subst.
Qed.

(** X19: [install_breakpoint] installs a breakpoint only on an
    instruction that was decoded at the resolved address and is in the
    jump group, and only when the architecture has an assistant; the
    breakpoint carries the [taken] it was asked for.  The address is
    the integer literal when the text is one, else the address of the
    value GDB evaluates the text to, else that value itself; and no
    error message was printed. *)
Theorem install_breakpoint_only_on_branches (branch_ : String.string)
    (t : bool) (msgs : list branch.message)
    (bp : branch.BreakOnConditionalBranch) :
  branch.install_breakpoint branch_ t = (msgs, branch.Installed bp) ->
  branch.taken bp = t
  /\ In branch.CS_GRP_JUMP (branch.groups (branch.bp_instruction bp))
  /\ branch.for_current_arch <> None
  /\ (exists a,
        branch.one a = Some (branch.bp_instruction bp)
        /\ ((branch.int0 branch_ = Some a /\ msgs = [])
            \/ (branch.int0 branch_ = None
                /\ exists v,
                     branch.parse_and_eval branch_ = Ret v
                     /\ ((branch.value_address v = Some a /\ msgs = [])
                         \/ (branch.value_address v = None
                             /\ branch.value_int v = Ret a
                             /\ msgs = [branch.warn_no_address branch_]))))).
Proof.
  unfold branch.install_breakpoint.
  destruct (branch.int0 branch_) as [a|] eqn:Hi.
  - intros H. apply install_at_installed in H as (-> & Ht & Ho & Hg & Hf).
    repeat split; try assumption. exists a. split; [exact Ho|]. now left.
  - destruct (branch.parse_and_eval branch_) as [v|e] eqn:Hv.
    + destruct (branch.value_address v) as [a|] eqn:Ha.
      * intros H. apply install_at_installed in H as (-> & Ht & Ho & Hg & Hf).
        repeat split; try assumption. exists a. split; [exact Ho|].
        right. split; [reflexivity|]. exists v. split; [reflexivity|].
        now left.
      * destruct (branch.value_int v) as [a|e] eqn:Hn.
        -- intros H.
           apply install_at_installed in H as (-> & Ht & Ho & Hg & Hf).
           repeat split; try assumption. exists a. split; [exact Ho|].
           right. split; [reflexivity|]. exists v. split; [reflexivity|].
           right. now repeat split.
        -- destruct (is_Error e); discriminate.
    + destruct (is_Error e); discriminate.
Qed.

(** X20: an integer literal is taken at its value, GDB is not asked.
    When no instruction decodes at the address, the command ends in a
    [ValueError], that of the format [%#p] in its message, and prints
    nothing; on an instruction outside the jump group it prints that
    the instruction is not a branch and installs nothing. *)
Theorem install_breakpoint_at_literal (branch_ : String.string) (t : bool)
    (a : Z) :
  branch.int0 branch_ = Some a ->
  (branch.one a = None ->
   branch.install_breakpoint branch_ t = ([], branch.Failed ValueError))
  /\ (forall i,
        branch.one a = Some i ->
        ~ In branch.CS_GRP_JUMP (branch.groups i) ->
        branch.install_breakpoint branch_ t
        = ([branch.error_not_a_branch (branch.mnemonic i) (branch.op_str i) a],
           branch.Returned))
  /\ (forall i,
        branch.one a = Some i ->
        In branch.CS_GRP_JUMP (branch.groups i) ->
        branch.for_current_arch <> None ->
        branch.install_breakpoint branch_ t
        = ([], branch.Installed
                 {| branch.bp_instruction := i; branch.taken := t |})).
Proof.
  intros Hi. unfold branch.install_breakpoint, branch.install_at.
  rewrite Hi. split; [|split].
  - now intros ->.
  - intros i -> Hn.
    destruct (branch.in_groups _ _) eqn:Hg; [|reflexivity].
    exfalso. apply Hn. unfold branch.in_groups in Hg.
    apply existsb_exists in Hg as [g [Hin Hg]].
    apply Z.eqb_eq in Hg. now subst.
  - intros i -> Hin Hf.
    assert (Hg : branch.in_groups branch.CS_GRP_JUMP (branch.groups i) = true).
    { apply existsb_exists. exists branch.CS_GRP_JUMP.
      split; [exact Hin|apply Z.eqb_refl]. }
    rewrite Hg. cbn [negb].
    destruct branch.for_current_arch; [reflexivity|congruence].
Qed.

End BranchFacts.

(** Witness of X18: the condition of [jne] holds. *)
Lemma stop_taken_or_not_witness :
  exists b,
    branch.stop (env := program.env)
      {| branch.bp_instruction := program.jne; branch.taken := true |} = Ret b
    /\ branch.stop (env := program.env)
         {| branch.bp_instruction := program.jne; branch.taken := false |}
       = Ret (negb b)
    /\ (b = false <-> Some 1 = Some 0).
Proof.
  exact (proj1 (stop_taken_or_not (env := program.env) program.jne)
           (fun _ => Some 1) eq_refl).
Defined.

(** Witness of X19: [break-if-taken main]. *)
Lemma install_breakpoint_only_on_branches_witness :
  In branch.CS_GRP_JUMP (branch.groups program.jne).
Proof.
  exact (proj1 (proj2 (install_breakpoint_only_on_branches
                         (env := program.env) "main" true []
                         {| branch.bp_instruction := program.jne;
                            branch.taken := true |} eq_refl))).
Defined.

(** Witness of X20: an address without an instruction, [mov], [jne]. *)
Lemma install_breakpoint_at_literal_witness :
  branch.install_breakpoint (env := program.env) "0x500000" true
  = ([], branch.Failed ValueError)
  /\ branch.install_breakpoint (env := program.env) "0x401002" true
     = ([branch.error_not_a_branch "mov" "eax, ebx" 0x401002],
        branch.Returned)
  /\ branch.install_breakpoint (env := program.env) "0x401000" false
     = ([], branch.Installed {| branch.bp_instruction := program.jne;
                                branch.taken := false |}).
Proof.
  split; [|split].
  - exact (proj1 (install_breakpoint_at_literal (env := program.env)
                    "0x500000" true 0x500000 eq_refl) eq_refl).
  - exact (proj1 (proj2 (install_breakpoint_at_literal (env := program.env)
                    "0x401002" true 0x401002 eq_refl))
             program.mov eq_refl ltac:(cbn; tauto)).
  - exact (proj2 (proj2 (install_breakpoint_at_literal (env := program.env)
                    "0x401000" false 0x401000 eq_refl))
             program.jne eq_refl ltac:(cbn; tauto) ltac:(discriminate)).
Defined.
